(** * Sparsity allocators of the v2 pruning tools

    A shallow embedding of
    [nni/algorithms/compression/v2/pytorch/pruning/tools/sparsity_allocator.py]
    and the properties of its mask allocation, followed by the report
    [show_pruned_weights] and the collector hooks of
    [nni/algorithms/compression/v2/pytorch/pruning/basic_pruner.py].

    Conventions of the embedding:
    - a tensor is its size together with its contiguous row-major storage;
    - tensor entries (metrics, masks) are exact integers, fractions
      (sparsity rates, pooled averages) are exact rationals: rounding of
      floating point numbers is not part of the model;
    - a Python exception is a value [Raise e] of the [result] type;
    - a Python dict that is only looked up or assigned by key is a [gmap],
      a dict that is iterated is the list of its items in iteration order. *)

From stdpp Require Import base list sorting gmap strings.
From Stdlib Require Import ZArith QArith Qround Lia Lqa.

Close Scope Q_scope.
Open Scope Z_scope.

(** ** Exceptions *)

Inductive exn :=
  | AssertionError
  | KeyError
  | IndexError
  | ValueError
  | ZeroDivisionError
  | OverflowError
  | RuntimeError
  | UninitializedMemory
  | Unsupported.

Inductive result (A : Type) :=
  | Ok (a : A)
  | Raise (e : exn).
Arguments Ok {A} a.
Arguments Raise {A} e.

#[global] Instance result_ret : MRet result := λ A a, Ok a.
#[global] Instance result_bind : MBind result := λ A B f m,
  match m with
  | Ok a => f a
  | Raise e => Raise e
  end.

Definition py_assert (b : bool) : result unit :=
  if b then Ok () else Raise AssertionError.

Definition from_option {A} (e : exn) (o : option A) : result A :=
  match o with
  | Some a => Ok a
  | None => Raise e
  end.

(** [for x in l: acc = body(acc, x)], stopping at the first exception. *)
Fixpoint for_each {A S} (body : S → A → result S) (l : list A) (acc : S)
  : result S :=
  match l with
  | [] => Ok acc
  | x :: l' => acc' ← body acc x; for_each body l' acc'
  end.

(** ** Numbers *)

(** [int(q)] on a Python float: truncation towards zero. *)
Definition py_int (q : Q) : Z := Z.quot (Qnum q) (Z.pos (Qden q)).

(** [math.ceil(q)]. *)
Definition py_ceil (q : Q) : Z := Qceiling q.

(** [a / b] on Python numbers. *)
Definition py_div (a b : Q) : result Q :=
  if Qeq_bool b 0 then Raise ZeroDivisionError else Ok (a / b)%Q.

(** ** Tensors *)

Record tensor (A : Type) := Tensor { size : list nat; storage : list A }.
Arguments Tensor {A} size storage.
Arguments size {A} t.
Arguments storage {A} t.

Definition prod_list (l : list nat) : nat := foldr Nat.mul 1%nat l.

Definition numel {A} (t : tensor A) : nat := prod_list (size t).

(** A tensor is well formed when its storage holds exactly [numel] entries. *)
Definition tensor_wf {A} (t : tensor A) : Prop :=
  length (storage t) = numel t.

Definition tensor_map {A B} (f : A → B) (t : tensor A) : tensor B :=
  Tensor (size t) (f <$> storage t).

Definition clone {A} (t : tensor A) : tensor A := t.

Definition ones (sz : list nat) : tensor Z :=
  Tensor sz (replicate (prod_list sz) 1).

(** [t.min()] and [t.max()]: they raise on an empty tensor. *)
Definition list_min (l : list Z) : result Z :=
  match l with
  | [] => Raise RuntimeError
  | x :: l' => Ok (foldr Z.min x l')
  end.

Definition list_max (l : list Z) : result Z :=
  match l with
  | [] => Raise RuntimeError
  | x :: l' => Ok (foldr Z.max x l')
  end.

Definition tensor_min (t : tensor Z) : result Z := list_min (storage t).
Definition tensor_max (t : tensor Z) : result Z := list_max (storage t).

(** [torch.topk(v, k, largest=False)[0]] on a flat view: the [k] smallest
    entries in ascending order; [k] has to lie within [0, len(v)]. *)
Definition topk_smallest (v : list Z) (k : Z) : result (list Z) :=
  if bool_decide (0 ≤ k ≤ Z.of_nat (length v))
  then Ok (take (Z.to_nat k) (merge_sort Z.le v))
  else Raise RuntimeError.

(** [torch.gt(t, threshold).type_as(t)]. *)
Definition gt_mask (threshold : Z) (x : Z) : Z :=
  if bool_decide (threshold < x) then 1 else 0.

Definition tensor_gt (t : tensor Z) (threshold : Z) : tensor Z :=
  tensor_map (gt_mask threshold) t.

(** [a * b] and [a *= b] on tensors of one size.  Broadcasting between
    different sizes is outside the model and is rendered as the error
    PyTorch raises for sizes that do not match. *)
Definition tensor_mul (a b : tensor Z) : result (tensor Z) :=
  if bool_decide (size a = size b)
  then Ok (Tensor (size a) (zip_with Z.mul (storage a) (storage b)))
  else Raise RuntimeError.

Definition tensor_add (a b : tensor Z) : result (tensor Z) :=
  if bool_decide (size a = size b)
  then Ok (Tensor (size a) (zip_with Z.add (storage a) (storage b)))
  else Raise RuntimeError.

(** Number of pruned (zero) and kept entries of a mask. *)
Definition count_zero (l : list Z) : nat := length (filter (λ x, x = 0) l).
Definition sum_listZ (l : list Z) : Z := foldr Z.add 0 l.

(** ** Sizes, indices and views *)

(** Row-major multi-index of a flat position, and back. *)
Fixpoint unravel (sz : list nat) (i : nat) : list nat :=
  match sz with
  | [] => []
  | _ :: sz' => (i / prod_list sz')%nat :: unravel sz' (i mod prod_list sz')
  end.

Fixpoint ravel (sz idx : list nat) : nat :=
  match sz, idx with
  | _ :: sz', j :: idx' => (j * prod_list sz' + ravel sz' idx')%nat
  | _, _ => 0%nat
  end.

(** The entries of [l] whose position is listed in [keep]. *)
Definition select_dims {A} (keep : list nat) (l : list A) : list A :=
  snd <$> filter (λ p, p.1 ∈ keep) (imap pair l).

(** [torch.sum(t, dim=reduce)]: every axis in [reduce] is summed out. *)
Definition tensor_sum (t : tensor Z) (reduce : list nat) : tensor Z :=
  let keep := filter (λ i, i ∉ reduce) (seq 0 (length (size t))) in
  let out_size := select_dims keep (size t) in
  let cell j :=
    sum_listZ
      (snd <$> filter (λ p, select_dims keep (unravel (size t) p.1)
                             = unravel out_size j)
                      (imap pair (storage t))) in
  Tensor out_size (cell <$> seq 0 (prod_list out_size)).

(** Python's [l.insert(i, x)], [l.remove(x)] and [l.pop(i)]. *)
Definition list_insert_at {A} (i : nat) (x : A) (l : list A) : list A :=
  take i l ++ x :: drop i l.

Fixpoint list_remove (x : nat) (l : list nat) : result (list nat) :=
  match l with
  | [] => Raise ValueError
  | y :: l' =>
      if bool_decide (x = y) then Ok l'
      else l'' ← list_remove x l'; Ok (y :: l'')
  end.

Definition list_pop {A} (i : nat) (l : list A) : result (list A) :=
  if bool_decide (i < length l)%nat then Ok (delete i l) else Raise IndexError.

Definition unsqueeze {A} (i : nat) (t : tensor A) : result (tensor A) :=
  if bool_decide (i ≤ length (size t))%nat
  then Ok (Tensor (list_insert_at i 1%nat (size t)) (storage t))
  else Raise IndexError.

(** [t.squeeze(0)]. *)
Definition squeeze0 {A} (t : tensor A) : tensor A :=
  match size t with
  | 1%nat :: sz => Tensor sz (storage t)
  | _ => t
  end.

(** [t.expand(target)]: axes of extent one are repeated, new leading axes
    are added; the result is materialised. *)
Definition tensor_expand (t : tensor Z) (target : list nat)
  : result (tensor Z) :=
  let pad := (length target - length (size t))%nat in
  let src := replicate pad 1%nat ++ size t in
  if bool_decide ((length (size t) ≤ length target)%nat ∧
                  Forall2 (λ s d, s = d ∨ s = 1%nat) src target)
  then
    let entry j :=
      let idx := zip_with (λ s i, if bool_decide (s = 1%nat) then 0%nat else i)
                          src (unravel target j) in
      default 0 (storage t !! ravel src idx) in
    Ok (Tensor target (entry <$> seq 0 (prod_list target)))
  else Raise RuntimeError.

Definition reshape {A} (t : tensor A) (sz : list nat) : result (tensor A) :=
  if bool_decide (prod_list sz = length (storage t))
  then Ok (Tensor sz (storage t))
  else Raise RuntimeError.

(** [t.resize_(sz)] on a contiguous tensor: the first [numel] entries of
    the storage are kept and read with the new size.  When the storage is
    too short PyTorch grows it with uninitialised memory: no exception is
    raised there, but the entries are unspecified, and the model stops with
    [UninitializedMemory]. *)
Definition resize_ {A} (t : tensor A) (sz : list nat) : result (tensor A) :=
  if bool_decide (prod_list sz ≤ length (storage t))%nat
  then Ok (Tensor sz (take (prod_list sz) (storage t)))
  else Raise UninitializedMemory.

(** ** Average pooling *)

(** Output extent of a pooling with stride = kernel and [ceil_mode=True]. *)
Definition pool_out (n k : nat) : nat := ((n + k - 1) / k)%nat.

(** The input positions of output position [o]; the window is cut at the
    border ([count_include_pad=False] counts the cut window only). *)
Definition pool_window (n k o : nat) : list nat :=
  seq (o * k) (Nat.min k (n - o * k)).

Definition sum_listQ (l : list Q) : Q := foldr Qplus 0%Q l.

Definition avg_pool_plane (h w kh kw : nat) (plane : list Q) : list Q :=
  oh ← seq 0 (pool_out h kh);
  ow ← seq 0 (pool_out w kw);
  let cells :=
    r ← pool_window h kh oh;
    c ← pool_window w kw ow;
    [default 0%Q (plane !! (r * w + c)%nat)] in
  [(sum_listQ cells / inject_Z (Z.of_nat (length cells)))%Q].

(** [F.avg_pool2d(t, kernel_size=kernel, ceil_mode=True,
    count_include_pad=False)]: [t] has three or four axes, the last two are
    pooled. *)
Definition avg_pool2d (t : tensor Q) (kernel : list nat) : result (tensor Q) :=
  k ← match kernel with
      | [k] => Ok (k, k)
      | [kh; kw] => Ok (kh, kw)
      | _ => Raise RuntimeError
      end;
  d ← match size t with
      | [c; h; w] => Ok ([c], h, w)
      | [n; c; h; w] => Ok ([n; c], h, w)
      | _ => Raise RuntimeError
      end;
  let '(kh, kw) := k in
  let '(lead, h, w) := d in
  if bool_decide (1 ≤ kh ∧ 1 ≤ kw ∧ 1 ≤ h ∧ 1 ≤ w ∧ 1 ≤ prod_list lead)%nat
  then
    let plane p := take (h * w) (drop (p * (h * w)) (storage t)) in
    Ok (Tensor (lead ++ [pool_out h kh; pool_out w kw])
               (p ← seq 0 (prod_list lead); avg_pool_plane h w kh kw (plane p)))
  else Raise RuntimeError.

(** [(t != 0).type_as(t)]. *)
Definition ne_zero (q : Q) : Z := if Qeq_bool q 0 then 0 else 1.

(** ** The pruner seen by an allocator *)

(** The value of [masks[name]]: a dict with the key ['weight'] and, for
    some layers, the key ['bias']. *)
Record mask_dict := MaskDict { weight : tensor Z; bias : option (tensor Z) }.

(** A module wrapper: the two entries of [wrapper.config] the allocators
    read, the size of [wrapper.module.weight.data], and the masks that are
    loaded in the wrapper (those of the previous round). *)
Record ModuleWrapper := {
  total_sparsity : Q;
  max_sparsity_per_layer : option (gmap string Q);
  weight_size : list nat;
  weight_mask : tensor Z;
  bias_mask : option (tensor Z);
}.

Record Pruner := {
  get_modules_wrapper : list (string * ModuleWrapper);
  generate_module_groups : list (nat * list string);
}.

(** [d[name]] on the items of a dict. *)
Definition dict_get {V} (d : list (string * V)) (name : string) : result V :=
  from_option KeyError ((list_to_map d : gmap string V) !! name).

(** The interface of [SparsityAllocator]: the attributes set by its
    constructor and the two methods a subclass may override.  The base
    class itself lives in [tools/base.py]. *)
Class SparsityAllocator := {
  pruner : Pruner;
  dim : option (list nat);
  block_sparse_size : option (list nat);
  continuous_mask : bool;
  _compress_mask : tensor Z → result (tensor Z);
  _expand_mask : string → tensor Z → result mask_dict;
}.

Abbreviation metrics_dict := (gmap string (tensor Z)).
Abbreviation masks_dict := (gmap string mask_dict).

(** ** BlockSparsityAllocator: compressing and expanding masks *)

Module Block.

Definition compress_mask (dim block_sparse_size : option (list nat))
    (mask : tensor Z) : result (tensor Z) :=
  let rank := length (size mask) in
  mask ←
    match dim with
    | None => Ok (clone mask)
    | Some dims =>
        if bool_decide (rank = 1%nat) || bool_decide (length dims = rank)
        then Ok (clone mask)
        else
          mask_dim ← for_each (λ l d, list_remove d l) dims (seq 0 rank);
          Ok (tensor_sum mask mask_dim)
    end;
  mask ←
    match block_sparse_size with
    | Some kernel =>
        input ← unsqueeze 0 (tensor_map inject_Z mask);
        pooled ← avg_pool2d input kernel;
        Ok (squeeze0 pooled)
    | None => Ok (tensor_map inject_Z mask)
    end;
  Ok (tensor_map ne_zero mask).

(** The loop that tiles every reduced cell over its block. *)
Definition tile_step (st : tensor Z * list nat * list nat)
    (ib : nat * nat) : result (tensor Z * list nat * list nat) :=
  let '(weight_mask, expand_size, reshape_size) := st in
  let '(i, block_width) := ib in
  weight_mask ← unsqueeze (i + 1) weight_mask;
  let expand_size := list_insert_at (i + 1) block_width expand_size in
  r ← from_option IndexError (reshape_size !! i);
  Ok (weight_mask, expand_size, <[i := (r * block_width)%nat]> reshape_size).

Definition tile (weight_mask : tensor Z) (block_sparse_size : list nat)
  : result (tensor Z) :=
  st ← for_each tile_step (reverse (imap pair block_sparse_size))
         (weight_mask, size weight_mask, size weight_mask);
  let '(weight_mask, expand_size, reshape_size) := st in
  expanded ← tensor_expand weight_mask expand_size;
  reshape expanded reshape_size.

Definition expand_mask (p : Pruner) (dim block_sparse_size : option (list nat))
    (name : string) (mask : tensor Z) : result mask_dict :=
  let weight_mask := clone mask in
  weight_mask ←
    match block_sparse_size with
    | Some bss => tile weight_mask bss
    | None => Ok weight_mask
    end;
  wrapper ← dict_get (get_modules_wrapper p) name;
  let weight_size := weight_size wrapper in
  weight_mask ← resize_ weight_mask weight_size;
  match dim with
  | None =>
      _ ← py_assert (bool_decide (size weight_mask = weight_size));
      Ok (MaskDict weight_mask None)
  | Some dims =>
      _ ← py_assert (bool_decide (length (size weight_mask) = length dims));
      _ ← for_each (λ (_ : unit) ij,
             wj ← from_option IndexError (weight_size !! ij.2);
             mi ← from_option IndexError (size weight_mask !! ij.1);
             py_assert (bool_decide (wj = mi)))
           (imap pair dims) ();
      idxs ← for_each (λ l i, list_pop i l) (reverse dims)
               (seq 0 (length weight_size));
      weight_mask ← for_each (λ m i, unsqueeze i m) idxs weight_mask;
      expanded ← tensor_expand weight_mask weight_size;
      let bias :=
        match bias_mask wrapper with
        | Some b =>
            if bool_decide (size weight_mask = size b)
            then Some (clone weight_mask) else None
        | None => None
        end in
      Ok (MaskDict (clone expanded) bias)
  end.

Definition allocator (p : Pruner) (dim block_sparse_size : option (list nat))
    (continuous : bool) : SparsityAllocator :=
  {| pruner := p;
     dim := dim;
     block_sparse_size := block_sparse_size;
     continuous_mask := continuous;
     _compress_mask := compress_mask dim block_sparse_size;
     _expand_mask := expand_mask p dim block_sparse_size |}.

End Block.

(** ** NormalSparsityAllocator and BlockSparsityAllocator: generate_sparsity

    The two classes have the same [generate_sparsity]; they differ in the
    [_compress_mask] and [_expand_mask] they dispatch to. *)

Section Normal.
Context `{self : SparsityAllocator}.

(** Lines 33 to 37: the number of entries to prune and the threshold. *)
Definition prune_num_of (sparsity_rate : Q) (metric : tensor Z) : Z :=
  py_int (sparsity_rate * inject_Z (Z.of_nat (numel metric)))%Q.

Definition select_threshold (metric : tensor Z) (prune_num : Z) : result Z :=
  if bool_decide (prune_num = 0)
  then m ← tensor_min metric; Ok (m - 1)
  else smallest ← topk_smallest (storage metric) prune_num; list_max smallest.

(** [metric *= self._compress_mask(wrapper.weight_mask)] works in place:
    the tensor stored in [metrics] is the one that changes. *)
Definition continuous_metric (metrics : metrics_dict) (name : string)
    (wrapper : ModuleWrapper) (metric : tensor Z)
  : result (tensor Z * metrics_dict) :=
  if continuous_mask then
    compressed ← _compress_mask (weight_mask wrapper);
    metric ← tensor_mul metric compressed;
    Ok (metric, <[name := metric]> metrics)
  else Ok (metric, metrics).

(** [masks[name]['weight'] *= wrapper.weight_mask]. *)
Definition continuous_weight (wrapper : ModuleWrapper) (m : mask_dict)
  : result mask_dict :=
  if continuous_mask then
    w ← tensor_mul (weight m) (weight_mask wrapper);
    Ok (MaskDict w (bias m))
  else Ok m.

(** The body of the loop over the wrappers. *)
Definition generate_layer (st : masks_dict * metrics_dict)
    (item : string * ModuleWrapper) : result (masks_dict * metrics_dict) :=
  let '(masks, metrics) := st in
  let '(name, wrapper) := item in
  let sparsity_rate := total_sparsity wrapper in
  _ ← py_assert (bool_decide (is_Some (metrics !! name)));
  metric ← from_option KeyError (metrics !! name);
  mm ← continuous_metric metrics name wrapper metric;
  let '(metric, metrics) := mm in
  let prune_num := prune_num_of sparsity_rate metric in
  threshold ← select_threshold metric prune_num;
  let mask := tensor_gt metric threshold in
  m ← _expand_mask name mask;
  m ← continuous_weight wrapper m;
  Ok (<[name := m]> masks, metrics).

(** [generate_sparsity(metrics)]: the masks, and the state in which the
    call leaves the tensors of [metrics]. *)
Definition generate_sparsity (metrics : metrics_dict)
  : result (masks_dict * metrics_dict) :=
  for_each generate_layer (get_modules_wrapper pruner) (∅, metrics).

End Normal.

(** ** GlobalSparsityAllocator *)

Section Global.
Context `{self : SparsityAllocator}.

(** The state of the loop of [_calculate_threshold]. *)
Record threshold_state := ThresholdState {
  metric_list : list (list Z);
  sub_thresholds : gmap string Z;
  total_weight_num : nat;
}.

(** [group_metric_dict]: the items of [{name: metrics[name] for name in
    names}], a name that is repeated in [names] is one key. *)
Definition group_metrics_of (metrics : metrics_dict) (names : list string)
  : result (list (string * tensor Z)) :=
  for_each (λ acc name,
      metric ← from_option KeyError (metrics !! name);
      Ok (acc ++ [(name, metric)]))
    (remove_dups names) [].

(** [metric = metric * self._compress_mask(wrapper.weight_mask)]: a new
    tensor, the one in [metrics] is left as it is. *)
Definition effective_metric (wrapper : ModuleWrapper) (metric : tensor Z)
  : result (tensor Z) :=
  if continuous_mask then
    compressed ← _compress_mask (weight_mask wrapper);
    tensor_mul metric compressed
  else Ok metric.

(** [expend_times = int(layer_weight_num / metric.numel())]. *)
Definition expend_times_of (wrapper : ModuleWrapper) (metric : tensor Z)
  : result Z :=
  ratio ← py_div (inject_Z (Z.of_nat (prod_list (weight_size wrapper))))
            (inject_Z (Z.of_nat (numel metric)));
  Ok (py_int ratio).

(** Lines 209 to 212: the number of metric cells that may be pruned. *)
Definition stay_metric_num_of (max_sparsity : gmap string Q) (name : string)
    (wrapper : ModuleWrapper) (metric : tensor Z) : result Z :=
  let layer_weight_num := prod_list (weight_size wrapper) in
  let retention_ratio := (1 - default 1 (max_sparsity !! name))%Q in
  let retention_numel :=
    py_ceil (retention_ratio * inject_Z (Z.of_nat layer_weight_num))%Q in
  mask_ratio ← py_div (inject_Z (Z.of_nat (numel (weight_mask wrapper))))
                  (inject_Z (Z.of_nat (numel metric)));
  removed ← py_div (inject_Z retention_numel) mask_ratio;
  let removed_metric_num := py_ceil removed in
  Ok (Z.of_nat (numel metric) - removed_metric_num).

(** The body of the loop of [_calculate_threshold]. *)
Definition threshold_layer (max_sparsity : gmap string Q)
    (st : threshold_state) (item : string * tensor Z) : result threshold_state :=
  let '(name, metric) := item in
  wrapper ← dict_get (get_modules_wrapper pruner) name;
  metric ← effective_metric wrapper metric;
  let total :=
    (total_weight_num st + prod_list (weight_size wrapper))%nat in
  expend_times ← expend_times_of wrapper metric;
  stay_metric_num ← stay_metric_num_of max_sparsity name wrapper metric;
  if bool_decide (stay_metric_num ≤ 0) then
    m ← tensor_min metric;
    Ok (ThresholdState (metric_list st)
          (<[name := m - 1]> (sub_thresholds st)) total)
  else
    stay_metric ← topk_smallest (storage metric) stay_metric_num;
    sub ← list_max stay_metric;
    let stay_metric :=
      if bool_decide (1 < expend_times)
      then concat (replicate (Z.to_nat expend_times) stay_metric)
      else stay_metric in
    Ok (ThresholdState (metric_list st ++ [stay_metric])
          (<[name := sub]> (sub_thresholds st)) total).

(** [torch.cat(tensors)] raises on an empty list of tensors. *)
Definition cat (tensors : list (list Z)) : result (list Z) :=
  match tensors with
  | [] => Raise RuntimeError
  | _ => Ok (concat tensors)
  end.

Definition _calculate_threshold (group_metric_dict : list (string * tensor Z))
  : result (Z * gmap string Z) :=
  first ← from_option IndexError (head group_metric_dict);
  temp_wrapper ← dict_get (get_modules_wrapper pruner) first.1;
  let total_sparsity := total_sparsity temp_wrapper in
  let max_sparsity := default ∅ (max_sparsity_per_layer temp_wrapper) in
  st ← for_each (threshold_layer max_sparsity) group_metric_dict
         (ThresholdState [] ∅ 0);
  let total_prune_num :=
    py_int (total_sparsity * inject_Z (Z.of_nat (total_weight_num st)))%Q in
  pool ← cat (metric_list st);
  threshold ←
    (if bool_decide (total_prune_num = 0)
     then m ← list_min pool; Ok (m - 1)
     else smallest ← topk_smallest pool total_prune_num; list_max smallest);
  Ok (threshold, sub_thresholds st).

(** The body of the inner loop of [generate_sparsity]. *)
Definition global_layer (threshold : Z) (subs : gmap string Z)
    (masks : masks_dict) (item : string * tensor Z) : result masks_dict :=
  let '(name, metric) := item in
  sub ← from_option KeyError (subs !! name);
  let mask := tensor_gt metric (Z.min threshold sub) in
  m ← _expand_mask name mask;
  m ←
    (if continuous_mask then
       wrapper ← dict_get (get_modules_wrapper pruner) name;
       w ← tensor_mul (weight m) (weight_mask wrapper);
       Ok (MaskDict w (bias m))
     else Ok m);
  Ok (<[name := m]> masks).

Definition global_group (masks : masks_dict)
    (group_metric_dict : list (string * tensor Z)) : result masks_dict :=
  ts ← _calculate_threshold group_metric_dict;
  for_each (global_layer ts.1 ts.2) group_metric_dict masks.

Definition global_generate_sparsity (metrics : metrics_dict)
  : result masks_dict :=
  grouped_metrics ←
    for_each (λ acc group,
        d ← group_metrics_of metrics group.2; Ok (acc ++ [d]))
      (generate_module_groups pruner) [];
  for_each global_group grouped_metrics ∅.

End Global.

(** ** Conv2dDependencyAwareAllocator *)

Section DependencyAware.
Context `{self : SparsityAllocator}.

(** What [_get_dependency] stores in [self.channel_depen] and
    [self.group_depen]: the sets of layers that share their channels, each
    given by its members in iteration order, and the number of groups of
    every convolution. *)
Variable channel_depen : list (list string).
Variable group_depen : gmap string nat.

(** The metrics of this allocator have one axis ([dim] is one integer);
    tensors of another rank are outside the model. *)
Definition one_axis (t : tensor Z) : result nat :=
  match size t with
  | [n] => Ok n
  | _ => Raise Unsupported
  end.

(** First loop: [grouped_metric] holds the tensors of [metrics] themselves,
    so it is the list of its keys; [metric *= ...] changes the tensor that
    [metrics] holds. *)
Definition mask_member (metrics : metrics_dict) (name : string)
  : result metrics_dict :=
  metric ← from_option KeyError (metrics !! name);
  wrapper ← dict_get (get_modules_wrapper pruner) name;
  compressed ← _compress_mask (weight_mask wrapper);
  metric ← tensor_mul metric compressed;
  Ok (<[name := metric]> metrics).

Definition collect_group (st : list (list string) * metrics_dict)
    (names : list string) : result (list (list string) * metrics_dict) :=
  let '(grouped_metrics, metrics) := st in
  let grouped_metric :=
    filter (λ name, is_Some (metrics !! name)) (remove_dups names) in
  metrics ←
    (if continuous_mask then for_each mask_member grouped_metric metrics
     else Ok metrics);
  if bool_decide (0 < length grouped_metric)%nat
  then Ok (grouped_metrics ++ [grouped_metric], metrics)
  else Ok (grouped_metrics, metrics).

(** [_group_metric_calculate]. *)
Definition _group_metric_calculate (group_metrics : list (tensor Z))
  : result (tensor Z) :=
  first ← from_option IndexError (head group_metrics);
  _ ← py_assert (forallb (λ m, bool_decide (size first = size m)) group_metrics);
  for_each tensor_add group_metrics
    (Tensor (size first) (replicate (numel first) 0)).

(** [group_metric[_start:_end]]. *)
Definition slice (l : list Z) (start stop : nat) : list Z :=
  take (stop - start) (drop start l).

(** The mask of one segment of the summed metric. *)
Definition conv2d_group_mask (group_metric : list Z)
    (pruned_per_conv2d_group : Z) (conv2d_group_step gid : nat)
  : result (list Z) :=
  let _start := (gid * conv2d_group_step)%nat in
  let _end := ((gid + 1) * conv2d_group_step)%nat in
  if bool_decide (0 < pruned_per_conv2d_group) then
    smallest ← topk_smallest (slice group_metric _start _end)
                 pruned_per_conv2d_group;
    threshold ← list_max smallest;
    Ok (gt_mask threshold <$> slice group_metric _start _end)
  else Ok (replicate conv2d_group_step 1).

(** [min(sparsities.values())]. *)
Definition min_rate (rates : list Q) : result Q :=
  match rates with
  | [] => Raise ValueError
  | r :: rates' => Ok (foldl (λ m q, if Qlt_le_dec q m then q else m) r rates')
  end.

(** The structural mask shared by the members of a dependency set. *)
Definition structural_mask (group_metric : tensor Z) (min_sparsity : Q)
    (max_conv2d_group : nat) : result (tensor Z) :=
  n ← one_axis group_metric;
  if bool_decide (max_conv2d_group = 0%nat) then
    (* the quotient is infinite or not a number, and [int] refuses it *)
    if bool_decide (n = 0%nat) || Qeq_bool min_sparsity 0
    then Raise ValueError else Raise OverflowError
  else
    let per_group :=
      (inject_Z (Z.of_nat n) / inject_Z (Z.of_nat max_conv2d_group))%Q in
    let pruned_per_conv2d_group := py_int (per_group * min_sparsity)%Q in
    let conv2d_group_step := Z.to_nat (py_int per_group) in
    group_mask ←
      for_each (λ acc gid,
          m ← conv2d_group_mask (storage group_metric)
                pruned_per_conv2d_group conv2d_group_step gid;
          Ok (acc ++ [m]))
        (seq 0 max_conv2d_group) [];
    Ok (Tensor [length (concat group_mask)] (concat group_mask)).

(** The second pass, for one member of the set. *)
Definition member_mask (group_mask : tensor Z) (masks : masks_dict)
    (item : string * (tensor Z * Q)) : result masks_dict :=
  let '(name, (metric, sparsity)) := item in
  metric ← tensor_mul metric group_mask;
  len ← one_axis metric;
  let pruned_num := py_int (sparsity * inject_Z (Z.of_nat len))%Q in
  smallest ← topk_smallest (storage metric) pruned_num;
  threshold ← list_max smallest;
  let mask := tensor_gt metric threshold in
  m ← _expand_mask name mask;
  m ←
    (if continuous_mask then
       wrapper ← dict_get (get_modules_wrapper pruner) name;
       w ← tensor_mul (weight m) (weight_mask wrapper);
       Ok (MaskDict w (bias m))
     else Ok m);
  Ok (<[name := m]> masks).

(** The body of the second loop, for one dependency set. *)
Definition dependency_group (metrics : metrics_dict) (masks : masks_dict)
    (names : list string) : result masks_dict :=
  group_metric_dict ←
    for_each (λ acc name,
        metric ← from_option KeyError (metrics !! name); Ok (acc ++ [metric]))
      names [];
  group_metric ← _group_metric_calculate group_metric_dict;
  sparsities ←
    for_each (λ acc name,
        wrapper ← dict_get (get_modules_wrapper pruner) name;
        Ok (acc ++ [total_sparsity wrapper]))
      names [];
  min_sparsity ← min_rate sparsities;
  conv2d_groups ←
    for_each (λ acc name,
        g ← from_option KeyError (group_depen !! name); Ok (acc ++ [g]))
      names [];
  let max_conv2d_group := foldr Nat.lcm 1%nat conv2d_groups in
  group_mask ← structural_mask group_metric min_sparsity max_conv2d_group;
  for_each (member_mask group_mask)
    (zip names (zip group_metric_dict sparsities)) masks.

Definition dependency_generate_sparsity (metrics : metrics_dict)
  : result (masks_dict * metrics_dict) :=
  st ← for_each collect_group channel_depen ([], metrics);
  let '(grouped_metrics, metrics) := st in
  masks ← for_each (dependency_group metrics) grouped_metrics ∅;
  Ok (masks, metrics).

End DependencyAware.

(** ** Vocabulary of the properties *)

(** The flat view in ascending order. *)
Definition sorted (v : list Z) : list Z := merge_sort Z.le v.

(** The number of entries the decision [x > t] prunes. *)
Definition pruned_by (t : Z) (v : list Z) : nat :=
  length (filter (λ x, x ≤ t) v).

(** * Inputs of the scenarios *)




(** A layer with the given rate and caps, whose loaded mask is [mask]. *)
Definition layer (rate : Q) (caps : option (gmap string Q))
    (mask : tensor Z) : ModuleWrapper :=
  {| total_sparsity := rate; max_sparsity_per_layer := caps;
     weight_size := size mask; weight_mask := mask; bias_mask := None |}.

Definition one_group (layers : list (string * ModuleWrapper)) : Pruner :=
  {| get_modules_wrapper := layers;
     generate_module_groups := [(0%nat, layers.*1)] |}.

(** An allocator of [p] that inherits arbitrary methods. *)
Definition inherit (p : Pruner) (dims bss : option (list nat)) (continuous : bool)
    (compress : tensor Z → result (tensor Z))
    (expand : string → tensor Z → result mask_dict) : SparsityAllocator :=
  {| pruner := p; dim := dims; block_sparse_size := bss;
     continuous_mask := continuous;
     _compress_mask := compress; _expand_mask := expand |}.

(** One convolution of eight channels with rate 1/10: nothing to prune. *)
Definition zero_prune_pruner : Pruner :=
  one_group [("conv1"%string, layer (1 # 10) None (ones [8]%nat))].

Definition zero_prune_metrics : metrics_dict :=
  {[ "conv1"%string := Tensor [8]%nat (seqZ 1 8) ]}.

(** Two convolutions that share their channels; only the second one has a
    metric. *)
Definition skip_pruner : Pruner :=
  one_group [("conv1"%string, layer (1 # 2) None (ones [8]%nat));
             ("conv2"%string, layer (1 # 2) None (ones [8]%nat))].

Definition skip_metrics : metrics_dict :=
  {[ "conv2"%string := Tensor [8]%nat (seqZ 1 8) ]}.

Definition skip_masks : masks_dict :=
  {[ "conv2"%string :=
       MaskDict (Tensor [8]%nat (replicate 4 0 ++ replicate 4 1)) None ]}.

(** A weight of size 2x3 pruned in blocks of 2x2: the last column is a
    block of its own. *)
Definition block_pruner : Pruner :=
  one_group [("fc"%string, layer (1 # 2) None (ones [2; 3]%nat))].

Definition uniform_mask : tensor Z := Tensor [2; 3]%nat [1; 1; 0; 1; 1; 0].

Definition block_uniformb (bh bw : nat) (mask : tensor Z) : bool :=
  match size mask with
  | [h; w] =>
      forallb (λ i, forallb (λ j,
          implb (bool_decide ((i / w) / bh = (j / w) / bh ∧
                              (i mod w) / bw = (j mod w) / bw))%nat
                (bool_decide (storage mask !! i = storage mask !! j)))
        (seq 0 (h * w))) (seq 0 (h * w))
  | _ => false
  end.

(** [_expand_mask(name, _compress_mask(mask))] of the Block allocator. *)
Definition compress_expand (p : Pruner) (dims bss : option (list nat))
    (name : string) (mask : tensor Z) : result mask_dict :=
  reduced ← Block.compress_mask dims bss mask;
  Block.expand_mask p dims bss name reduced.

(** A layer whose first entry was pruned by the previous round. *)
Definition continuous_pruner : Pruner :=
  one_group [("fc"%string, layer (1 # 4) None (Tensor [4]%nat [0; 1; 1; 1]))].

Definition continuous_metrics : metrics_dict :=
  {[ "fc"%string := Tensor [4]%nat [5; 1; 2; 3] ]}.

(** Two layers of one group, the first one with a cap. *)
Definition capped_pair (rate cap : Q) (maskA maskB : tensor Z) : Pruner :=
  let caps := Some ({[ "layerA"%string := cap ]} : gmap string Q) in
  one_group [("layerA"%string, layer rate caps maskA);
             ("layerB"%string, layer rate caps maskB)].

Definition pair_metrics (a b : tensor Z) : metrics_dict :=
  {[ "layerA"%string := a; "layerB"%string := b ]}.



(** ** Vocabulary of the Global allocator *)

Section GlobalVocabulary.
Context `{self : SparsityAllocator}.

(** [layer_weight_num] of an item of [group_metric_dict]. *)
Definition layer_weight_num (item : string * tensor Z) : nat :=
  match dict_get (get_modules_wrapper pruner) item.1 with
  | Ok w => prod_list (weight_size w)
  | Raise _ => 0%nat
  end.

(** What [_calculate_threshold] derives from one layer when
    continuous-mask mode is off: the threshold [sub] of the layer and the
    values [share] it adds to the pool. *)
Definition layer_share (max_sparsity : gmap string Q)
    (item : string * tensor Z) (sub : Z) (share : list Z) : Prop :=
  ∃ w stay,
    dict_get (get_modules_wrapper pruner) item.1 = Ok w ∧
    stay_metric_num_of max_sparsity item.1 w item.2 = Ok stay ∧
    ((stay ≤ 0 ∧ share = [] ∧ tensor_min item.2 = Ok (sub + 1)) ∨
     (0 < stay ≤ Z.of_nat (length (storage item.2)) ∧
      sorted (storage item.2) !! (Z.to_nat stay - 1)%nat = Some sub ∧
      ∃ times,
        expend_times_of w item.2 = Ok times ∧
        let smallest := take (Z.to_nat stay) (sorted (storage item.2)) in
        share = if bool_decide (1 < times)
                then concat (replicate (Z.to_nat times) smallest)
                else smallest)).



End GlobalVocabulary.

(** Two layers of four weights with distinct entries; layerA is capped. *)
Definition small_pair (cap : Q) : Pruner :=
  capped_pair (1 # 2) cap (ones [4]%nat) (ones [4]%nat).

Definition small_group : list (string * tensor Z) :=
  [("layerA"%string, Tensor [4]%nat [1; 2; 3; 4]);
   ("layerB"%string, Tensor [4]%nat [10; 20; 30; 40])].

Definition flat_mask (entries : list Z) : mask_dict :=
  MaskDict (Tensor [length entries] entries) None.

(** Two convolutions of eight channels that share their channels; the
    first one has two groups. *)
Definition conv_pair : Pruner :=
  one_group [("conv1"%string, layer (1 # 4) None (ones [8]%nat));
             ("conv2"%string, layer (1 # 2) None (ones [8]%nat))].




(** ** Vocabulary of continuous-mask mode *)

Section ContinuousVocabulary.
Context `{self : SparsityAllocator}.



End ContinuousVocabulary.

(** ** Vocabulary of the Block allocator *)


(** The cells of the mask [m] of size [h] x [w] that the pooling window of
    the reduced position ([oh], [ow]) covers. *)
Definition block_cells (h w kh kw : nat) (m : list Z) (oh ow : nat) : list Z :=
  r ← pool_window h kh oh;
  c ← pool_window w kw ow;
  [default 0 (m !! (r * w + c)%nat)].

(** The reduced mask, cell by cell. *)
Definition block_any (h w kh kw : nat) (m : list Z) (i : nat) : Z :=
  let ow := pool_out w kw in
  if bool_decide (Forall (eq 0) (block_cells h w kh kw m (i / ow) (i mod ow)))
  then 0 else 1.

(** ** BlockPruner.show_pruned_weights

    The method of [basic_pruner.py] that reports how much of every wrapped
    layer is left.  It writes to the logger and to the standard output;
    what it writes is kept, in order, next to the way the call ends. *)

Module BlockPruner.

(** [print(sum_idx)], and the line
    [simulated prune <name> remain/total: <remain>/<total>] of the logger;
    [wrapper.name] is the name under which the wrapper is registered. *)
Inductive output :=
  | Printed (sum_idx : list nat)
  | Logged (name : string) (remain total : nat).

(** [len(torch.nonzero(t.abs() != 0, as_tuple=False).tolist())]. *)
Definition nonzero (t : tensor Z) : nat :=
  length (filter (λ x, Z.abs x ≠ 0) (storage t)).

(** [t.size(dim)] for a Python integer: a negative [dim] counts from the
    last axis. *)
Definition size_at {A} (t : tensor A) (dim : Z) : result nat :=
  let rank := Z.of_nat (length (size t)) in
  if bool_decide (- rank ≤ dim < rank)
  then from_option IndexError (size t !! Z.to_nat (dim `mod` rank))
  else Raise IndexError.

(** [sum_idx.remove(dim)] for a Python integer: [range] has no negative
    entry. *)
Definition remove_int (dim : Z) (l : list nat) : result (list nat) :=
  if bool_decide (0 ≤ dim) then list_remove (Z.to_nat dim) l
  else Raise ValueError.

(** The body of the loop: what it writes, and how it ends. *)
Definition show_layer (dim : Z) (item : string * ModuleWrapper)
  : list output * result unit :=
  let '(name, wrapper) := item in
  let weight_mask := weight_mask wrapper in
  let mask_size := size weight_mask in
  if bool_decide (dim = -1) then
    ([Logged name (nonzero weight_mask) (numel weight_mask)], Ok ())
  else if bool_decide (length mask_size = 1%nat) then
    match size_at weight_mask dim with
    | Ok total => ([Logged name (nonzero weight_mask) total], Ok ())
    | Raise e => ([], Raise e)
    end
  else
    match remove_int dim (seq 0 (length mask_size)) with
    | Ok sum_idx =>
        let index :=
          nonzero (tensor_sum (tensor_map Z.abs weight_mask) sum_idx) in
        match size_at weight_mask dim with
        | Ok total => ([Printed sum_idx; Logged name index total], Ok ())
        | Raise e => ([Printed sum_idx], Raise e)
        end
    | Raise e => ([], Raise e)
    end.

Fixpoint show_loop (dim : Z) (items : list (string * ModuleWrapper))
  : list output * result unit :=
  match items with
  | [] => ([], Ok ())
  | item :: items' =>
      let '(out, r) := show_layer dim item in
      match r with
      | Ok _ => let '(out', r') := show_loop dim items' in (out ++ out', r')
      | Raise e => (out, Raise e)
      end
  end.

Definition show_pruned_weights (p : Pruner) (dim : Z)
  : list output * result unit :=
  show_loop dim (get_modules_wrapper p).

End BlockPruner.

(** ** The collectors of ActivationPruner and TaylorFOWeightPruner

    The hooks of [basic_pruner.py] that add up what the trainer shows them.
    Activations, weights and gradients are tensors of rationals.  A
    collector and its hook share the Python list [buffer]: the hook is a
    function from the list before a call to the list after it. *)

Definition tensor_addQ (a b : tensor Q) : result (tensor Q) :=
  if bool_decide (size a = size b)
  then Ok (Tensor (size a) (zip_with Qplus (storage a) (storage b)))
  else Raise RuntimeError.

Definition tensor_mulQ (a b : tensor Q) : result (tensor Q) :=
  if bool_decide (size a = size b)
  then Ok (Tensor (size a) (zip_with Qmult (storage a) (storage b)))
  else Raise RuntimeError.

(** [torch.zeros_like(t)]. *)
Definition zeros_like (t : tensor Q) : tensor Q :=
  Tensor (size t) (replicate (length (storage t)) 0%Q).

(** An item of [buffer]: the integer [buffer[0]] or the tensor
    [buffer[1]]. *)
Inductive buffer_item :=
  | Batches (n : Z)
  | Total (t : tensor Q).

(** [buffer[0]] and [buffer[1]]; the hooks only meet the lists their
    collector has made, an item of the other kind is outside the model. *)
Definition buffer_count (buffer : list buffer_item) : result Z :=
  match buffer !! 0%nat with
  | Some (Batches n) => Ok n
  | Some (Total _) => Raise Unsupported
  | None => Raise IndexError
  end.

Definition buffer_total (buffer : list buffer_item) : result (tensor Q) :=
  match buffer !! 1%nat with
  | Some (Total t) => Ok t
  | Some (Batches _) => Raise Unsupported
  | None => Raise IndexError
  end.

(** [buffer[1] += rhs; buffer[0] += 1]. *)
Definition add_batch (buffer : list buffer_item) (rhs : result (tensor Q))
  : result (list buffer_item) :=
  total ← buffer_total buffer;
  t ← rhs;
  total ← tensor_addQ total t;
  let buffer := <[1%nat := Total total]> buffer in
  n ← buffer_count buffer;
  Ok (<[0%nat := Batches (n + 1)]> buffer).

Module ActivationPruner.

(** [nn.functional.relu] and [nn.functional.relu6] on one entry. *)
Definition relu (x : Q) : Q := if Qlt_le_dec x 0 then 0%Q else x.
Definition relu6 (x : Q) : Q := if Qlt_le_dec 6 (relu x) then 6%Q else relu x.

(** [_choose_activation]: the last branch raises a string, which is no
    exception, so the statement itself fails; it is rendered as [None]. *)
Definition _choose_activation (activation : string) : option (Q → Q) :=
  if bool_decide (activation = "relu"%string) then Some relu
  else if bool_decide (activation = "relu6"%string) then Some relu6
  else None.

Definition _collector (buffer : list buffer_item) : result (list buffer_item) :=
  _ ← py_assert (bool_decide (length buffer = 0%nat));
  Ok (buffer ++ [Batches 0]).

(** The hook [collect_activation] that [_collector] returns. *)
Definition collect_activation (training_batches : Z)
    (_activation_trans : tensor Q → tensor Q)
    (buffer : list buffer_item) (output : tensor Q)
  : result (list buffer_item) :=
  let buffer :=
    if bool_decide (length buffer = 1%nat)
    then buffer ++ [Total (zeros_like output)] else buffer in
  n ← buffer_count buffer;
  if bool_decide (n < training_batches)
  then add_batch buffer (Ok (_activation_trans output))
  else Ok buffer.

(** [ActivationAPoZRankPruner._activation_trans]: 1 where the activation
    is zero, 0 elsewhere. *)
Definition apoz_trans (_activation : Q → Q) (output : tensor Q) : tensor Q :=
  tensor_map (λ x, if Qeq_bool (_activation x) 0 then 1%Q else 0%Q) output.

(** [ActivationMeanRankPruner._activation_trans]. *)
Definition mean_rank_trans (_activation : Q → Q) (output : tensor Q)
  : tensor Q :=
  tensor_map _activation output.

End ActivationPruner.

Module TaylorFOWeightPruner.

Definition _calculate_taylor_expansion (weight_tensor grad : tensor Q)
  : result (tensor Q) :=
  product ← tensor_mulQ weight_tensor grad;
  Ok (tensor_map (λ x, x ^ 2)%Q product).

Definition _collector (buffer : list buffer_item) (weight_tensor : tensor Q)
  : result (list buffer_item) :=
  _ ← py_assert (bool_decide (length buffer = 0%nat));
  Ok (buffer ++ [Batches 0] ++ [Total (zeros_like weight_tensor)]).

(** The hook [collect_taylor] that [_collector] returns. *)
Definition collect_taylor (training_batches : Z) (weight_tensor : tensor Q)
    (buffer : list buffer_item) (grad : tensor Q)
  : result (list buffer_item) :=
  n ← buffer_count buffer;
  if bool_decide (n < training_batches)
  then add_batch buffer (_calculate_taylor_expansion weight_tensor grad)
  else Ok buffer.

End TaylorFOWeightPruner.

(** What a hook has added up after it has seen the tensors [ts], each
    turned into the list of entries [f t]: the first [limit] of them. *)
Definition summed_batches (f : tensor Q → list Q) (limit : nat)
    (start : list Q) (ts : list (tensor Q)) : list Q :=
  foldl (zip_with Qplus) start (f <$> take limit ts).

(** * Properties *)

(** ** Reasoning about calls that return *)

Lemma bind_Ok {A B} (m : result A) (f : A → result B) b :
  m ≫= f = Ok b → ∃ a, m = Ok a ∧ f a = Ok b.
Proof. destruct m as [a|e]; [eauto|done]. Qed.

Lemma bind_Raise_l {A B} (f : A → result B) e : Raise e ≫= f = Raise e.
Proof. done. Qed.

Lemma bind_Ok_l {A B} (f : A → result B) a : Ok a ≫= f = f a.
Proof. done. Qed.

Lemma py_assert_Ok b u : py_assert b = Ok u → b = true.
Proof. by destruct b. Qed.

Lemma from_option_Ok {A} e (o : option A) a : from_option e o = Ok a → o = Some a.
Proof. destruct o; naive_solver. Qed.

Ltac inv_step H :=
  let a := fresh "a" in
  let Ha := fresh "H" a in
  apply bind_Ok in H as (a & Ha & H).

Tactic Notation "inv_bind" hyp(H) "as" ident(a) ident(Ha) :=
  apply bind_Ok in H as (a & Ha & H).

(** ** The threshold selector *)

Section Threshold.
Implicit Types (l v : list Z) (k : Z) (t x : Z).

Lemma list_max_spec l m :
  list_max l = Ok m → m ∈ l ∧ ∀ x, x ∈ l → x ≤ m.
Proof.
  destruct l as [|a l]; [done|]. simpl. intros [= <-].
  induction l as [|b l IH]; simpl.
  - split; [left|]. intros x ->%list_elem_of_singleton. lia.
  - destruct IH as [Hin Hle]. split.
    + destruct (Z.max_spec b (foldr Z.max a l)) as [[_ ->]|[_ ->]].
      * apply elem_of_cons in Hin as [->|Hin]; [left|]. by do 2 right.
      * right; left.
    + intros x [->|[->|Hx]%elem_of_cons]%elem_of_cons.
      * specialize (Hle a (list_elem_of_here _ _)). lia.
      * lia.
      * specialize (Hle x (list_elem_of_further _ _ _ Hx)). lia.
Qed.

Lemma list_min_spec l m :
  list_min l = Ok m → m ∈ l ∧ ∀ x, x ∈ l → m ≤ x.
Proof.
  destruct l as [|a l]; [done|]. simpl. intros [= <-].
  induction l as [|b l IH]; simpl.
  - split; [left|]. intros x ->%list_elem_of_singleton. lia.
  - destruct IH as [Hin Hle]. split.
    + destruct (Z.min_spec b (foldr Z.min a l)) as [[_ ->]|[_ ->]].
      * right; left.
      * apply elem_of_cons in Hin as [->|Hin]; [left|]. by do 2 right.
    + intros x [->|[->|Hx]%elem_of_cons]%elem_of_cons.
      * specialize (Hle a (list_elem_of_here _ _)). lia.
      * lia.
      * specialize (Hle x (list_elem_of_further _ _ _ Hx)). lia.
Qed.

Lemma list_max_is_Ok l : l ≠ [] → ∃ m, list_max l = Ok m.
Proof. destruct l; [done|]. eauto. Qed.

Lemma list_min_is_Ok l : l ≠ [] → ∃ m, list_min l = Ok m.
Proof. destruct l; [done|]. eauto. Qed.

Lemma sorted_perm v : sorted v ≡ₚ v.
Proof. apply merge_sort_Permutation. Qed.

Lemma sorted_strongly v : StronglySorted Z.le (sorted v).
Proof. apply Sorted_StronglySorted; [apply _|]. apply Sorted_merge_sort, _. Qed.

Lemma sorted_length v : length (sorted v) = length v.
Proof. by rewrite sorted_perm. Qed.

(** In a sorted list, an earlier entry is at most a later one. *)
Lemma strongly_sorted_lookup_le (s : list Z) i j x y :
  StronglySorted Z.le s → (i ≤ j)%nat →
  s !! i = Some x → s !! j = Some y → x ≤ y.
Proof.
  intros Hs. revert i j. induction Hs as [|a s Hs IH Hall]; intros i j Hij Hi Hj.
  - done.
  - destruct i as [|i], j as [|j]; simplify_eq/=; try lia.
    + rewrite Forall_forall in Hall. apply Hall.
      by eapply list_elem_of_lookup_2.
    + eapply (IH i j); [lia|done..].
Qed.






Lemma pruned_by_mono t t' v : t ≤ t' → (pruned_by t v ≤ pruned_by t' v)%nat.
Proof.
  intros Htt. unfold pruned_by. induction v as [|x v IH]; [done|].
  destruct (decide (x ≤ t)).
  - rewrite !filter_cons_True by lia. simpl. lia.
  - rewrite (filter_cons_False (λ x, x ≤ t)) by done.
    destruct (decide (x ≤ t')).
    + rewrite filter_cons_True by done. simpl. lia.
    + by rewrite filter_cons_False by done.
Qed.

Lemma count_zero_gt t v : count_zero (gt_mask t <$> v) = pruned_by t v.
Proof.
  unfold count_zero, pruned_by. induction v as [|x v IH]; [done|].
  rewrite fmap_cons. unfold gt_mask at 1. case_bool_decide.
  - rewrite filter_cons_False by done. rewrite filter_cons_False by lia. done.
  - rewrite filter_cons_True by done. rewrite filter_cons_True by lia.
    simpl. by rewrite IH.
Qed.

(** The largest of the [k] smallest entries is the entry of rank [k]. *)
Lemma max_of_smallest v k :
  0 < k ≤ Z.of_nat (length v) →
  ∃ t, topk_smallest v k = Ok (take (Z.to_nat k) (sorted v)) ∧
       list_max (take (Z.to_nat k) (sorted v)) = Ok t ∧
       sorted v !! (Z.to_nat k - 1)%nat = Some t.
Proof.
  intros Hk. unfold topk_smallest. rewrite bool_decide_eq_true_2 by lia.
  destruct (list_max_is_Ok (take (Z.to_nat k) (sorted v))) as [t Ht].
  { intros Hnil%(f_equal length). rewrite length_take, sorted_length in Hnil.
    simpl in Hnil. lia. }
  exists t. split_and!; [done..|].
  apply list_max_spec in Ht as [Hin Hmax].
  destruct (lookup_lt_is_Some_2 (sorted v) (Z.to_nat k - 1)) as [y Hy].
  { rewrite sorted_length. lia. }
  rewrite Hy. f_equal.
  assert (take (Z.to_nat k) (sorted v) !! (Z.to_nat k - 1)%nat = Some y) as Hy'.
  { rewrite lookup_take_lt by lia. done. }
  assert (y ≤ t) by (apply Hmax; by eapply list_elem_of_lookup_2).
  apply list_elem_of_lookup in Hin as [i Hi].
  assert (i < Z.to_nat k)%nat.
  { apply lookup_lt_Some in Hi. rewrite length_take in Hi. lia. }
  rewrite lookup_take_lt in Hi by done.
  assert (t ≤ y).
  { eapply (strongly_sorted_lookup_le (sorted v) i (Z.to_nat k - 1));
      [apply sorted_strongly|lia|done..]. }
  lia.
Qed.



End Threshold.

Lemma topk_smallest_Ok (v : list Z) (k : Z) smallest :
  topk_smallest v k = Ok smallest →
  0 ≤ k ≤ Z.of_nat (length v) ∧ smallest = take (Z.to_nat k) (sorted v).
Proof.
  unfold topk_smallest. case_bool_decide; [|done]. by intros [= <-].
Qed.

Lemma threshold_of_rank (v : list Z) (k : Z) smallest t :
  0 < k → topk_smallest v k = Ok smallest → list_max smallest = Ok t →
  k ≤ Z.of_nat (length v) ∧ sorted v !! (Z.to_nat k - 1)%nat = Some t.
Proof.
  intros Hk Htop Hmax. pose proof (topk_smallest_Ok _ _ _ Htop) as [Hle ->].
  destruct (max_of_smallest v k) as (t' & _ & Hmax' & Hrank); [lia|].
  split; [lia|]. congruence.
Qed.

(** ** Counts computed from rates *)

Lemma py_int_le (q : Q) (n : Z) : (q <= inject_Z n)%Q → py_int q ≤ n.
Proof.
  destruct q as [a b]. unfold py_int, Qle. simpl. intros H.
  apply Z.quot_le_upper_bound; lia.
Qed.

Lemma py_int_floor (q : Q) : (0 <= q)%Q → py_int q = Qfloor q.
Proof.
  destruct q as [a b]. unfold py_int, Qle. simpl. intros H.
  apply Z.quot_div_nonneg; lia.
Qed.

Lemma rate_mul_le (rate : Q) (n : nat) :
  (rate <= 1)%Q → (rate * inject_Z (Z.of_nat n) <= inject_Z (Z.of_nat n))%Q.
Proof.
  intros H. rewrite <-(Qmult_1_l (inject_Z (Z.of_nat n))) at 2.
  apply Qmult_le_compat_r; [done|].
  unfold Qle. simpl. lia.
Qed.

Lemma prune_num_le (rate : Q) (metric : tensor Z) :
  (rate <= 1)%Q → prune_num_of rate metric ≤ Z.of_nat (numel metric).
Proof. intros H. apply py_int_le, rate_mul_le, H. Qed.

Lemma py_int_ceiling (q : Q) : (q <= 0)%Q → py_int q = Qceiling q.
Proof.
  destruct q as [a b]. unfold py_int, Qceiling, Qfloor, Qle. simpl. intros H.
  rewrite <-(Z.opp_involutive a) at 1. rewrite Z.quot_opp_l by lia.
  rewrite Z.quot_div_nonneg by lia. done.
Qed.

(** [int] is monotone. *)
Lemma py_int_mono (q q' : Q) : (q <= q')%Q → py_int q ≤ py_int q'.
Proof.
  intros H.
  destruct (Qlt_le_dec q 0) as [Hq|Hq], (Qlt_le_dec q' 0) as [Hq'|Hq'].
  - rewrite !py_int_ceiling by (by apply Qlt_le_weak).
    by apply Qceiling_resp_le.
  - rewrite py_int_ceiling by (by apply Qlt_le_weak).
    rewrite py_int_floor by done. transitivity 0.
    + rewrite <-(Qceiling_Z 0). apply Qceiling_resp_le. by apply Qlt_le_weak.
    + rewrite <-(Qfloor_Z 0). by apply Qfloor_resp_le.
  - exfalso. apply (Qlt_irrefl 0). eapply Qle_lt_trans; [exact Hq|].
    eapply Qle_lt_trans; [exact H|done].
  - rewrite !py_int_floor by done. by apply Qfloor_resp_le.
Qed.

(** A rate that does not decrease does not decrease the prune number. *)
Lemma prune_num_mono (rate rate' : Q) (metric : tensor Z) :
  (rate <= rate')%Q → prune_num_of rate metric ≤ prune_num_of rate' metric.
Proof.
  intros H. apply py_int_mono, Qmult_le_compat_r; [done|].
  unfold Qle. simpl. lia.
Qed.

(** ** Normal and Block allocators: the decision of a layer *)



(** ** Evaluations *)

(** C6. The second pass of the dependency-aware allocator has no case for
    a prune number of zero: with rate 1/10 on eight channels the call
    raises, whatever the inherited methods are, where the layer-local
    allocator returns the all-ones mask. *)
Theorem dependency_zero_prune_raises :
  (∀ dims bss compress expand,
     dependency_generate_sparsity
       (self := inherit zero_prune_pruner dims bss false compress expand)
       [["conv1"%string]] {[ "conv1"%string := 1%nat ]} zero_prune_metrics
     = Raise RuntimeError) ∧
  generate_sparsity (self := Block.allocator zero_prune_pruner None None false)
    zero_prune_metrics
  = Ok ({[ "conv1"%string := MaskDict (ones [8]%nat) None ]}, zero_prune_metrics).
Proof. split; [intros dims bss compress expand|]; by vm_compute. Qed.

(** C9. Compressing and expanding reproduces an all-ones mask, but not
    every block-uniform mask: on a weight of size 2x3 with blocks of 2x2
    the expanded rows are read with the wrong row length. *)
Theorem block_roundtrip_misaligned :
  block_uniformb 2 2 uniform_mask = true ∧
  compress_expand block_pruner None (Some [2; 2]%nat) "fc" uniform_mask
  = Ok (MaskDict (Tensor [2; 3]%nat [1; 1; 0; 0; 1; 1]) None) ∧
  Tensor [2; 3]%nat [1; 1; 0; 0; 1; 1] ≠ uniform_mask ∧
  compress_expand block_pruner None (Some [2; 2]%nat) "fc" (ones [2; 3]%nat)
  = Ok (MaskDict (ones [2; 3]%nat) None).
Proof. split_and!; by vm_compute. Qed.

(** C10. Under continuous-mask mode the layer-local allocator overwrites
    the metric tensor it was given: the entry 5 of a previously pruned
    position is 0 after the call. *)
Theorem continuous_call_changes_metrics :
  generate_sparsity (self := Block.allocator continuous_pruner None None true)
    continuous_metrics
  = Ok ({[ "fc"%string := MaskDict (Tensor [4]%nat [0; 1; 1; 1]) None ]},
        {[ "fc"%string := Tensor [4]%nat [0; 1; 2; 3] ]}) ∧
  ({[ "fc"%string := Tensor [4]%nat [0; 1; 2; 3] ]} : metrics_dict)
  ≠ continuous_metrics.
Proof.
  split; [by vm_compute|].
  intros H%(f_equal (λ m : metrics_dict, m !! "fc"%string)).
  vm_compute in H. discriminate.
Qed.

(** C7, as stated, fails: the dependency-aware allocator returns masks
    although the wrapped layer conv1 has no metric. *)
Lemma dependency_skips_missing_metric :
  "conv1"%string ∈ (get_modules_wrapper skip_pruner).*1 ∧
  skip_metrics !! "conv1"%string = None ∧
  dependency_generate_sparsity
    (self := Block.allocator skip_pruner None None false)
    [["conv1"; "conv2"]%string]
    {[ "conv1"%string := 1%nat; "conv2"%string := 1%nat ]} skip_metrics
  = Ok (skip_masks, skip_metrics) ∧
  skip_masks !! "conv1"%string = None.
Proof. split_and!; [set_solver|by vm_compute..]. Qed.

(** C8, as stated, fails: layerA has no cell that may be pruned, its
    entries are the smallest of the group and lie below the global
    threshold 40, and none of them is pruned. *)
Lemma protected_layer_is_kept :
  let p := capped_pair (1 # 2) (1 # 100) (ones [4]%nat) (ones [4]%nat) in
  let a := Tensor [4]%nat [1; 2; 3; 4] in
  let b := Tensor [4]%nat [10; 20; 30; 40] in
  let self := Block.allocator p None None false in
  (∃ w, dict_get (get_modules_wrapper p) "layerA" = Ok w ∧
        stay_metric_num_of {[ "layerA"%string := (1 # 100)%Q ]} "layerA" w a
        = Ok 0) ∧
  (∃ subs, _calculate_threshold [("layerA"%string, a); ("layerB"%string, b)]
           = Ok (40, subs)) ∧
  global_generate_sparsity (pair_metrics a b)
  = Ok {[ "layerA"%string := MaskDict (ones [4]%nat) None;
          "layerB"%string := MaskDict (Tensor [4]%nat [0; 0; 0; 0]) None ]}.
Proof.
  intros p a b self. split_and!.
  - eexists. split; by vm_compute.
  - eexists. by vm_compute.
  - by vm_compute.
Qed.



(** A loop that returns has run its body on every item. *)
Lemma for_each_app {A S} (body : S → A → result S) l1 l2 acc :
  for_each body (l1 ++ l2) acc = for_each body l1 acc ≫= for_each body l2.
Proof.
  revert acc. induction l1 as [|x l1 IH]; intros acc; [done|].
  simpl. destruct (body acc x); [apply IH|done].
Qed.

Lemma for_each_invariant {A S} (body : S → A → result S) (P : S → Prop) l acc acc' :
  (∀ s x s', x ∈ l → P s → body s x = Ok s' → P s') →
  P acc → for_each body l acc = Ok acc' → P acc'.
Proof.
  revert acc. induction l as [|x l IH]; intros acc Hbody HP H.
  - by injection H as <-.
  - simpl in H. inv_step H. eapply (IH a); [|by eapply Hbody; [left|..]|done].
    intros s y s' Hy. apply Hbody. by right.
Qed.

(** ** A layer without a metric *)

Section MissingMetric.
Context `{self : SparsityAllocator}.

Lemma continuous_metric_dom metrics name wrapper metric metric' metrics' other :
  continuous_metric metrics name wrapper metric = Ok (metric', metrics') →
  other ≠ name → metrics' !! other = metrics !! other.
Proof.
  unfold continuous_metric. intros H Hne. destruct continuous_mask.
  - inv_step H. inv_step H. injection H as <- <-.
    by rewrite lookup_insert_ne.
  - by injection H as <- <-.
Qed.

Lemma generate_layer_missing st item st' name :
  generate_layer st item = Ok st' →
  st.2 !! name = None → st'.2 !! name = None.
Proof.
  destruct st as [masks metrics], item as [n w]. unfold generate_layer.
  intros H Hnone. simpl in Hnone.
  inv_step H. apply py_assert_Ok, bool_decide_eq_true in Ha.
  inv_step H. inv_step H. destruct a1 as [metric metrics1].
  inv_step H. inv_step H. inv_step H. injection H as <-. simpl.
  rewrite (continuous_metric_dom _ _ _ _ _ _ name Ha1); [done|].
  intros ->. rewrite Hnone in Ha. by destruct Ha.
Qed.

Lemma generate_sparsity_missing l st name :
  name ∈ l.*1 → st.2 !! name = None →
  ∃ e, for_each generate_layer l st = Raise e.
Proof.
  revert st. induction l as [|[n w] l IH]; intros st Hin Hnone.
  - by apply elem_of_nil in Hin.
  - simpl. destruct (decide (n = name)) as [->|Hne].
    + destruct st as [masks metrics]. simpl in *.
      rewrite Hnone. rewrite bool_decide_eq_false_2 by (by intros [? ?]).
      by eexists.
    + destruct (generate_layer st (n, w)) as [st'|e] eqn:Hst; [|by eexists].
      simpl. apply IH.
      * rewrite fmap_cons in Hin. apply elem_of_cons in Hin as [?|?]; [|done].
        by simplify_eq/=.
      * by eapply generate_layer_missing.
Qed.

Lemma group_metrics_loop_missing (metrics : metrics_dict) names acc name :
  name ∈ names → metrics !! name = None →
  for_each (λ acc name,
      metric ← from_option KeyError (metrics !! name);
      Ok (acc ++ [(name, metric)])) names acc = Raise KeyError.
Proof.
  revert acc. induction names as [|n names IH]; intros acc Hin Hnone.
  - by apply elem_of_nil in Hin.
  - simpl. destruct (metrics !! n) as [m|] eqn:Hn; [|done]. simpl.
    apply IH; [|done]. apply elem_of_cons in Hin as [->|?]; [congruence|done].
Qed.

Lemma group_metrics_loop_Raise (metrics : metrics_dict) names acc e :
  for_each (λ acc name,
      metric ← from_option KeyError (metrics !! name);
      Ok (acc ++ [(name, metric)])) names acc = Raise e → e = KeyError.
Proof.
  revert acc. induction names as [|n names IH]; intros acc; [done|].
  simpl. destruct (metrics !! n); simpl; [apply IH|by intros [= <-]].
Qed.

Lemma group_metrics_of_Raise (metrics : metrics_dict) names e :
  group_metrics_of metrics names = Raise e → e = KeyError.
Proof. apply group_metrics_loop_Raise. Qed.

Lemma grouping_missing (metrics : metrics_dict) groups acc idx names name :
  (idx, names) ∈ groups → name ∈ names → metrics !! name = None →
  for_each (λ acc (group : nat * list string),
      d ← group_metrics_of metrics group.2; Ok (acc ++ [d])) groups acc
  = Raise KeyError.
Proof.
  revert acc. induction groups as [|g groups IH]; intros acc Hg Hin Hnone.
  - by apply elem_of_nil in Hg.
  - simpl. destruct (group_metrics_of metrics g.2) as [d|e] eqn:Hd.
    + simpl. apply elem_of_cons in Hg as [Hg|Hg]; [|by apply IH].
      subst g. unfold group_metrics_of in Hd. simpl in Hd.
      rewrite (group_metrics_loop_missing _ _ _ name) in Hd; [done| |done].
      by apply elem_of_remove_dups.
    + simpl. by rewrite (group_metrics_of_Raise _ _ _ Hd).
Qed.

End MissingMetric.

(** C7, amended. In the Normal, the Block and the Global allocator a layer
    of the model set without a metric makes [generate_sparsity] raise: no
    mask is returned. *)
Theorem missing_metric_raises :
  (∀ (self : SparsityAllocator) (metrics : metrics_dict) (name : string),
     name ∈ (get_modules_wrapper pruner).*1 → metrics !! name = None →
     ∃ e, generate_sparsity metrics = Raise e) ∧
  (∀ (self : SparsityAllocator) (metrics : metrics_dict) idx names name,
     (idx, names) ∈ generate_module_groups pruner → name ∈ names →
     metrics !! name = None →
     global_generate_sparsity metrics = Raise KeyError).
Proof.
  split.
  - intros self metrics name Hin Hnone.
    by apply (generate_sparsity_missing _ (∅, metrics) name).
  - intros self metrics idx names name Hg Hin Hnone.
    unfold global_generate_sparsity.
    by rewrite (grouping_missing metrics _ _ idx names name).
Qed.

Lemma missing_metric_raises_witness :
  (∃ e, generate_sparsity (self := Block.allocator skip_pruner None None false)
          skip_metrics = Raise e) ∧
  global_generate_sparsity (self := Block.allocator skip_pruner None None false)
    skip_metrics = Raise KeyError.
Proof.
  split.
  - apply (proj1 missing_metric_raises
             (Block.allocator skip_pruner None None false) skip_metrics
             "conv1"%string).
    + simpl. set_solver.
    + reflexivity.
  - apply (proj2 missing_metric_raises
             (Block.allocator skip_pruner None None false) skip_metrics
             0%nat ["conv1"; "conv2"]%string "conv1"%string).
    + simpl. set_solver.
    + set_solver.
    + reflexivity.
Defined.

(** ** Continuous-mask mode *)


Section Continuous.
Context `{self : SparsityAllocator}.
Hypothesis continuous : continuous_mask = true.







End Continuous.

(** A cell whose metric is 0 is pruned as soon as one cell is pruned,
    when the metric has no negative entry. *)
Lemma zero_cell_pruned (metric : tensor Z) (k threshold : Z) :
  0 < k → select_threshold metric k = Ok threshold →
  Forall (λ x, 0 ≤ x) (storage metric) →
  ∀ i, storage metric !! i = Some 0 →
       storage (tensor_gt metric threshold) !! i = Some 0.
Proof.
  intros Hk H Hpos i Hi. unfold select_threshold in H.
  rewrite bool_decide_eq_false_2 in H by lia.
  inv_bind H as smallest Htop. apply list_max_spec in H as [Hin _].
  apply topk_smallest_Ok in Htop as [_ ->].
  apply subseteq_take in Hin. rewrite sorted_perm in Hin.
  rewrite Forall_forall in Hpos. specialize (Hpos _ Hin).
  simpl. rewrite list_lookup_fmap, Hi. simpl. unfold gt_mask.
  by rewrite bool_decide_eq_false_2 by lia.
Qed.



(** ** Quotients and caps *)

Lemma py_div_Ok a b q : py_div a b = Ok q → ¬ (b == 0)%Q ∧ q = (a / b)%Q.
Proof.
  unfold py_div. destruct (Qeq_bool b 0) eqn:Hb; [done|]. intros [= <-].
  split; [|done]. intros H. apply Qeq_bool_iff in H. congruence.
Qed.

Lemma inject_nat_nonneg (n : nat) : (0 <= inject_Z (Z.of_nat n))%Q.
Proof. unfold Qle. simpl. lia. Qed.

Lemma inject_nat_zero (n : nat) : (inject_Z (Z.of_nat n) == 0)%Q → n = 0%nat.
Proof. unfold Qeq. simpl. lia. Qed.



Lemma stay_metric_num_numel `{self : SparsityAllocator} caps name w metric stay :
  stay_metric_num_of caps name w metric = Ok stay → numel metric ≠ 0%nat.
Proof.
  unfold stay_metric_num_of. intros H. inv_step H.
  apply py_div_Ok in Ha as [Hn _]. intros Hz. apply Hn. by rewrite Hz.
Qed.

(** ** Ranks in a metric without ties *)





(** ** The Global allocator, continuous-mask mode off *)

Section GlobalLoops.
Context `{self : SparsityAllocator}.
Hypothesis continuous_off : continuous_mask = false.

Lemma threshold_layer_share caps st item st' :
  threshold_layer caps st item = Ok st' →
  ∃ sub share,
    layer_share caps item sub share ∧
    sub_thresholds st' = <[item.1 := sub]> (sub_thresholds st) ∧
    concat (metric_list st') = concat (metric_list st) ++ share ∧
    total_weight_num st' = (total_weight_num st + layer_weight_num item)%nat.
Proof.
  destruct item as [name metric]. unfold threshold_layer, layer_weight_num.
  simpl. intros H. inv_bind H as w Hw. rewrite Hw. inv_bind H as eff Heff.
  unfold effective_metric in Heff. rewrite continuous_off in Heff.
  injection Heff as <-. inv_bind H as times Htimes. inv_bind H as stay Hstay.
  case_bool_decide as Hle.
  - inv_bind H as m Hm. injection H as <-. simpl.
    exists (m - 1), []. split_and!; [|done|by rewrite app_nil_r|done].
    exists w, stay. split_and!; [done..|]. left. split_and!; [done..|].
    by replace (m - 1 + 1) with m by lia.
  - inv_bind H as smallest Htop. inv_bind H as sub Hsub.
    injection H as <-. simpl.
    assert (0 < stay) as Hpos by lia.
    destruct (threshold_of_rank _ _ _ _ Hpos Htop Hsub) as [Hlen Hrank].
    apply topk_smallest_Ok in Htop as [_ ->].
    eexists sub, _. split_and!; [|done| |done].
    + exists w, stay. split_and!; [done..|]. right. simpl.
      split_and!; [lia..|done|]. by exists times.
    + rewrite concat_app. simpl. by rewrite app_nil_r.
Qed.

Lemma threshold_loop_share caps g st st' :
  NoDup g.*1 → for_each (threshold_layer caps) g st = Ok st' →
  ∃ shares : list (Z * list Z),
    Forall2 (λ item sh, layer_share caps item sh.1 sh.2 ∧
                        sub_thresholds st' !! item.1 = Some sh.1) g shares ∧
    concat (metric_list st') = concat (metric_list st) ++ concat shares.*2 ∧
    total_weight_num st'
    = (total_weight_num st + sum_list (layer_weight_num <$> g))%nat ∧
    ∀ name, name ∉ g.*1 → sub_thresholds st' !! name = sub_thresholds st !! name.
Proof.
  revert st. induction g as [|item g IH]; intros st Hnd H.
  - injection H as <-. exists []. split_and!; [constructor| |simpl; lia|done].
    by rewrite app_nil_r.
  - simpl in H. inv_bind H as st1 Hst1. rewrite fmap_cons in Hnd.
    apply NoDup_cons in Hnd as [Hfresh Hnd].
    destruct (threshold_layer_share _ _ _ _ Hst1)
      as (sub & share & Hshare & Hsubs & Hpool & Htotal).
    destruct (IH st1 Hnd H) as (shares & Hall & Hpool' & Htotal' & Hframe).
    exists ((sub, share) :: shares). split_and!.
    + constructor; [|done]. split; [done|]. simpl.
      rewrite (Hframe _ Hfresh), Hsubs. apply lookup_insert_eq.
    + rewrite Hpool', Hpool. simpl. by rewrite (assoc_L (++)).
    + rewrite Htotal', Htotal, fmap_cons. simpl. lia.
    + intros name Hname. rewrite fmap_cons, not_elem_of_cons in Hname.
      destruct Hname as [Hne Hname]. rewrite (Hframe _ Hname), Hsubs.
      by apply lookup_insert_ne.
Qed.

Lemma global_layers_masks T subs g masks0 masks :
  NoDup g.*1 → for_each (global_layer T subs) g masks0 = Ok masks →
  (∀ item, item ∈ g →
     ∃ sub m, subs !! item.1 = Some sub ∧
       _expand_mask item.1 (tensor_gt item.2 (Z.min T sub)) = Ok m ∧
       masks !! item.1 = Some m) ∧
  ∀ name, name ∉ g.*1 → masks !! name = masks0 !! name.
Proof.
  revert masks0. induction g as [|item g IH]; intros masks0 Hnd H.
  - injection H as <-. split; [|done]. intros item Hitem.
    by apply elem_of_nil in Hitem.
  - simpl in H. inv_bind H as masks1 Hmasks1. rewrite fmap_cons in Hnd.
    apply NoDup_cons in Hnd as [Hfresh Hnd].
    destruct (IH masks1 Hnd H) as [Hall Hframe].
    destruct item as [name metric]. unfold global_layer in Hmasks1.
    inv_bind Hmasks1 as sub Hsub. apply from_option_Ok in Hsub.
    inv_bind Hmasks1 as m Hm.
    rewrite continuous_off in Hmasks1. simpl in Hmasks1.
    injection Hmasks1 as <-.
    split.
    + intros item [->|Hitem]%elem_of_cons; [|by apply Hall].
      exists sub, m. split_and!; [done..|]. simpl in *.
      rewrite (Hframe _ Hfresh). apply lookup_insert_eq.
    + intros other Hother. rewrite fmap_cons, not_elem_of_cons in Hother.
      destruct Hother as [Hne Hother]. rewrite (Hframe _ Hother).
      by apply lookup_insert_ne.
Qed.

(** What a group's thresholds and masks are when the call returns. *)
Lemma global_group_returns masks0 g masks :
  NoDup g.*1 → global_group masks0 g = Ok masks →
  ∃ T subs first w0 (shares : list (Z * list Z)),
    _calculate_threshold g = Ok (T, subs) ∧
    head g = Some first ∧
    dict_get (get_modules_wrapper pruner) first.1 = Ok w0 ∧
    Forall2 (λ item sh,
        layer_share (default ∅ (max_sparsity_per_layer w0)) item sh.1 sh.2 ∧
        subs !! item.1 = Some sh.1 ∧
        ∃ m, _expand_mask item.1 (tensor_gt item.2 (Z.min T sh.1)) = Ok m ∧
             masks !! item.1 = Some m) g shares ∧
    let pool := concat shares.*2 in
    let K := py_int (total_sparsity w0
               * inject_Z (Z.of_nat (sum_list (layer_weight_num <$> g))))%Q in
    if bool_decide (K = 0)
    then ∃ m, list_min pool = Ok m ∧ T = m - 1
    else 0 < K ≤ Z.of_nat (length pool) ∧
         sorted pool !! (Z.to_nat K - 1)%nat = Some T.
Proof.
  intros Hnd H. unfold global_group in H. inv_bind H as ts Hts.
  destruct ts as [T subs]. simpl in H. pose proof Hts as Hcalc.
  unfold _calculate_threshold in Hts. inv_bind Hts as first Hfirst.
  apply from_option_Ok in Hfirst. inv_bind Hts as w0 Hw0.
  inv_bind Hts as st Hst. inv_bind Hts as pool Hpool.
  inv_bind Hts as T' HT. injection Hts as -> <-.
  destruct (threshold_loop_share _ _ _ _ Hnd Hst)
    as (shares & Hall & Hcat & Htotal & _).
  destruct (global_layers_masks _ _ _ _ _ Hnd H) as [Hmasks _].
  simpl in Hcat, Htotal. rewrite Htotal in HT.
  assert (pool = concat shares.*2) as ->.
  { unfold cat in Hpool. destruct (metric_list st); [done|].
    injection Hpool as <-. done. }
  exists T, (sub_thresholds st), first, w0, shares.
  split_and!; [done..| |].
  - clear Hst HT Hcat Htotal Hfirst Hnd H Hpool Hcalc. revert Hmasks.
    induction Hall as [|item sh g shares [Hshare Hsub] Hall IH];
      intros Hmasks; constructor.
    + split_and!; [done..|].
      destruct (Hmasks item) as (sub & m & Hsub' & Hm & Hlook); [left|].
      exists m. split; [|done]. congruence.
    + apply IH. intros item' Hitem'. apply Hmasks. by right.
  - simpl. case_bool_decide as HK.
    + inv_bind HT as m Hm. injection HT as <-. by exists m.
    + inv_bind HT as smallest Htop.
      assert (0 ≤ py_int (total_sparsity w0 *
        inject_Z (Z.of_nat (sum_list (layer_weight_num <$> g))))%Q).
      { pose proof (topk_smallest_Ok _ _ _ Htop) as [[? _] _]. done. }
      set (K := py_int _) in *. assert (0 < K) as HKpos by lia.
      destruct (threshold_of_rank _ _ _ _ HKpos Htop HT) as [? ?]. done.
Qed.

End GlobalLoops.

(** ** A layer under its cap *)

Lemma tensor_gt_all_kept metric t :
  Forall (λ x, t < x) (storage metric) →
  tensor_gt metric t
  = Tensor (size metric) (replicate (length (storage metric)) 1).
Proof.
  intros H. unfold tensor_gt, tensor_map. f_equal.
  induction H as [|x l Hx _ IH]; [done|]. rewrite fmap_cons. simpl.
  rewrite IH. unfold gt_mask. by rewrite bool_decide_eq_true_2.
Qed.

Lemma expend_times_is_Ok (w : ModuleWrapper) (metric : tensor Z) :
  numel metric ≠ 0%nat → ∃ times, expend_times_of w metric = Ok times.
Proof.
  intros Hn. unfold expend_times_of, py_div.
  destruct (Qeq_bool (inject_Z (Z.of_nat (numel metric))) 0) eqn:Hz.
  - apply Qeq_bool_iff, inject_nat_zero in Hz. done.
  - simpl. eauto.
Qed.


Section GlobalLayers.
Context `{self : SparsityAllocator}.


End GlobalLayers.

(** C8, amended. A layer whose [stay_metric_num] is at most 0 adds no
    value to the pool and gets the threshold [min - 1], below all of its
    entries; with continuous-mask mode off the decision of that layer
    keeps every cell: the layer is protected, not pruned. *)
Theorem protected_layer_keeps_all (self : SparsityAllocator) :
  (∀ caps st name metric w eff stay,
     dict_get (get_modules_wrapper pruner) name = Ok w →
     effective_metric w metric = Ok eff → tensor_wf eff →
     stay_metric_num_of caps name w eff = Ok stay → stay ≤ 0 →
     ∃ m, tensor_min eff = Ok m ∧
       threshold_layer caps st (name, metric)
       = Ok (ThresholdState (metric_list st)
               (<[name := m - 1]> (sub_thresholds st))
               (total_weight_num st + prod_list (weight_size w))) ∧
       ∀ x, x ∈ storage eff → m - 1 < x) ∧
  (continuous_mask = false →
   ∀ g masks0 masks item first w0 w stay,
     NoDup g.*1 → global_group masks0 g = Ok masks → item ∈ g →
     head g = Some first →
     dict_get (get_modules_wrapper pruner) first.1 = Ok w0 →
     dict_get (get_modules_wrapper pruner) item.1 = Ok w →
     stay_metric_num_of (default ∅ (max_sparsity_per_layer w0)) item.1 w item.2
     = Ok stay →
     stay ≤ 0 →
     ∃ m, _expand_mask item.1
            (Tensor (size item.2) (replicate (length (storage item.2)) 1))
          = Ok m ∧
          masks !! item.1 = Some m).
Proof.
  split.
  - intros caps st name metric w eff stay Hw Heff Hwf Hstay Hle.
    pose proof (stay_metric_num_numel _ _ _ _ _ Hstay) as Hn.
    destruct (expend_times_is_Ok w eff Hn) as [times Htimes].
    destruct (list_min_is_Ok (storage eff)) as [m Hm].
    { intros Hnil. apply Hn. by rewrite <-Hwf, Hnil. }
    exists m. split_and!; [done| |].
    + unfold threshold_layer. rewrite Hw. simpl. rewrite Heff. simpl.
      rewrite Htimes. simpl. rewrite Hstay. simpl.
      rewrite bool_decide_eq_true_2 by done.
      unfold tensor_min. by rewrite Hm.
    + intros x Hx. apply list_min_spec in Hm as [_ Hm].
      specialize (Hm x Hx). lia.
  - intros Hoff g masks0 masks item first w0 w stay Hnd Hg Hitem Hfirst Hw0
      Hw Hstay Hle.
    destruct (global_group_returns Hoff _ _ _ Hnd Hg)
      as (T & subs & first' & w0' & shares & _ & Hfirst' & Hw0' & Hall & _).
    assert (first' = first) as -> by congruence.
    assert (w0' = w0) as -> by congruence.
    apply list_elem_of_lookup in Hitem as [i Hi].
    destruct (Forall2_lookup_l _ _ _ _ _ Hall Hi)
      as (sh & _ & (w' & stay' & Hw' & Hstay' & Hcase) & _ & m & Hm & Hlook).
    assert (w' = w) as -> by congruence.
    assert (stay' = stay) as -> by congruence.
    destruct Hcase as [(_ & _ & Hmin)|((Hpos & _) & _)]; [|lia].
    exists m. split; [|done]. rewrite <-Hm. f_equal. symmetry.
    apply tensor_gt_all_kept. apply list_min_spec in Hmin as [_ Hmin].
    apply Forall_forall. intros x Hx. specialize (Hmin x Hx). lia.
Qed.


Section GlobalTotal.
Context `{self : SparsityAllocator}.


End GlobalTotal.


(** ** The Block allocator on metrics of the size of the weights *)



(** ** The Global allocator on two small layers *)

Lemma protected_layer_keeps_all_witness :
  let self := Block.allocator (small_pair (1 # 100)) None None false in
  (∃ m, threshold_layer {[ "layerA"%string := (1 # 100)%Q ]}
          (ThresholdState [] ∅ 0) ("layerA"%string, Tensor [4]%nat [1; 2; 3; 4])
        = Ok (ThresholdState [] {[ "layerA"%string := m - 1 ]} 4)) ∧
  ∃ m, _expand_mask "layerA"%string (ones [4]%nat) = Ok m ∧
       ({[ "layerA"%string := flat_mask [1; 1; 1; 1];
           "layerB"%string := flat_mask [0; 0; 0; 0] ]} : masks_dict)
       !! "layerA"%string = Some m.
Proof.
  intros self.
  destruct (protected_layer_keeps_all self) as [Hlocal Hmasks]. split.
  - destruct (Hlocal {[ "layerA"%string := (1 # 100)%Q ]}
                (ThresholdState [] ∅ 0) "layerA"%string
                (Tensor [4]%nat [1; 2; 3; 4])
                (layer (1 # 2) (Some {[ "layerA"%string := (1 # 100)%Q ]})
                   (ones [4]%nat))
                (Tensor [4]%nat [1; 2; 3; 4]) 0)
      as (m & _ & Hlayer & _); [reflexivity..|lia|].
    exists m. exact Hlayer.
  - apply (Hmasks eq_refl small_group ∅ _
             ("layerA"%string, Tensor [4]%nat [1; 2; 3; 4])
             ("layerA"%string, Tensor [4]%nat [1; 2; 3; 4])
             (layer (1 # 2) (Some {[ "layerA"%string := (1 # 100)%Q ]})
                (ones [4]%nat))
             (layer (1 # 2) (Some {[ "layerA"%string := (1 # 100)%Q ]})
                (ones [4]%nat)) 0).
    + apply (bool_decide_unpack _). by vm_compute.
    + by vm_compute.
    + left.
    + reflexivity.
    + reflexivity.
    + reflexivity.
    + reflexivity.
    + lia.
Defined.



(** ** The dependency-aware allocator: the shared structural mask *)












(** A loop that appends one value per item. *)
Lemma collect_loop {A B} (body : list B → A → result (list B))
    (f : A → result B) (l : list A) acc r :
  (∀ acc x, body acc x = f x ≫= λ y, Ok (acc ++ [y])) →
  for_each body l acc = Ok r →
  ∃ ys, r = acc ++ ys ∧ Forall2 (λ x y, f x = Ok y) l ys.
Proof.
  intros Hbody. revert acc. induction l as [|x l IH]; intros acc H.
  - injection H as <-. exists []. by rewrite app_nil_r.
  - simpl in H. rewrite Hbody in H. inv_bind H as acc' Hacc.
    inv_bind Hacc as y Hy.
    injection Hacc as <-. destruct (IH _ H) as (ys & -> & Hall).
    exists (y :: ys). split; [by rewrite <-(assoc_L (++))|].
    by constructor.
Qed.

Lemma tensor_add_Ok a b c :
  tensor_add a b = Ok c →
  size b = size a ∧ size c = size a ∧
  storage c = zip_with Z.add (storage a) (storage b).
Proof.
  unfold tensor_add. case_bool_decide; [|done]. by intros [= <-].
Qed.

(** The summed metric, entry by entry. *)
Lemma sum_loop_entry (ms : list (tensor Z)) acc gm (i : nat) a :
  for_each tensor_add ms acc = Ok gm →
  storage acc !! i = Some a →
  Forall (λ m, is_Some (storage m !! i)) ms →
  size gm = size acc ∧ Forall (λ m, size m = size acc) ms ∧
  storage gm !! i
  = Some (a + sum_listZ ((λ m, default 0 (storage m !! i)) <$> ms)).
Proof.
  revert acc a. induction ms as [|m ms IH]; intros acc a H Ha Hall.
  - injection H as <-. split_and!; [done|constructor|].
    simpl. by rewrite Z.add_0_r.
  - simpl in H. inv_bind H as acc' Hacc.
    apply tensor_add_Ok in Hacc as (Hsm & Hsacc & Hst).
    apply Forall_cons in Hall as [[x Hx] Hall].
    destruct (IH acc' (a + x) H) as (Hsize & Hsizes & Hentry); [|done|].
    { rewrite Hst, lookup_zip_with, Ha, Hx. done. }
    split_and!; [congruence| |].
    + constructor; [done|]. eapply Forall_impl; [exact Hsizes|].
      simpl. intros. congruence.
    + rewrite Hentry, fmap_cons, Hx. simpl. f_equal. lia.
Qed.

Section DependencyGroup.
Context `{self : SparsityAllocator}.

Lemma dependency_group_returns group_depen (metrics : metrics_dict)
    (masks : masks_dict) names masks' :
  dependency_group group_depen metrics masks names = Ok masks' →
  ∃ group_metrics sparsities groups group_metric min_sparsity group_mask,
    Forall2 (λ name m, metrics !! name = Some m) names group_metrics ∧
    Forall2 (λ name s,
        ∃ w, dict_get (get_modules_wrapper pruner) name = Ok w ∧
             s = total_sparsity w) names sparsities ∧
    Forall2 (λ name g, group_depen !! name = Some g) names groups ∧
    _group_metric_calculate group_metrics = Ok group_metric ∧
    min_rate sparsities = Ok min_sparsity ∧
    structural_mask group_metric min_sparsity (foldr Nat.lcm 1%nat groups)
    = Ok group_mask ∧
    for_each (member_mask group_mask)
      (zip names (zip group_metrics sparsities)) masks = Ok masks'.
Proof.
  unfold dependency_group. intros H.
  inv_bind H as group_metrics Hms. inv_bind H as group_metric Hgm.
  inv_bind H as sparsities Hsp. inv_bind H as min_sparsity Hmin.
  inv_bind H as groups Hgs. inv_bind H as group_mask Hmask.
  apply (collect_loop _ (λ name, from_option KeyError (metrics !! name)))
    in Hms as (ms & -> & Hms); [|done].
  apply (collect_loop _ (λ name, from_option KeyError (group_depen !! name)))
    in Hgs as (gs & -> & Hgs); [|done].
  apply (collect_loop _ (λ name,
           wrapper ← dict_get (get_modules_wrapper pruner) name;
           Ok (total_sparsity wrapper)))
    in Hsp as (ss & -> & Hss).
  2:{ intros acc name. by destruct (dict_get _ name). }
  exists ms, ss, gs, group_metric, min_sparsity, group_mask.
  split_and!; [| | |done..].
  - eapply Forall2_impl; [exact Hms|]. simpl. intros name m.
    by intros ?%from_option_Ok.
  - eapply Forall2_impl; [exact Hss|]. simpl. intros name q Hq.
    inv_bind Hq as w Hw. injection Hq as <-. by exists w.
  - eapply Forall2_impl; [exact Hgs|]. simpl. intros name g.
    by intros ?%from_option_Ok.
Qed.

End DependencyGroup.

Lemma group_metric_sum (ms : list (tensor Z)) gm :
  _group_metric_calculate ms = Ok gm → Forall tensor_wf ms →
  Forall (λ m, size m = size gm) ms ∧
  ∀ i, (i < numel gm)%nat →
    storage gm !! i
    = Some (sum_listZ ((λ m, default 0 (storage m !! i)) <$> ms)).
Proof.
  unfold _group_metric_calculate. intros H Hwf.
  inv_bind H as first Hfirst. inv_bind H as u Hu.
  apply py_assert_Ok in Hu. rewrite forallb_forall in Hu.
  assert (Forall (λ m, size m = size first) ms) as Hsizes.
  { apply Forall_forall. intros m Hm%list_elem_of_In.
    specialize (Hu m Hm). apply bool_decide_eq_true in Hu. done. }
  assert (∀ i, (i < numel first)%nat →
    Forall (λ m, is_Some (storage m !! i)) ms) as Hsome.
  { intros i Hi. apply Forall_forall. intros m Hm.
    apply lookup_lt_is_Some.
    rewrite Forall_forall in Hwf, Hsizes.
    rewrite (Hwf m Hm). unfold numel. rewrite (Hsizes m Hm). done. }
  assert (size gm = size first) as Hgm.
  { destruct (decide (0 < numel first)%nat) as [Hpos|Hzero].
    - destruct (sum_loop_entry ms _ gm 0%nat 0 H) as (Hs & _);
        [simpl; by apply lookup_replicate_2|by apply Hsome|done].
    - revert H. apply (for_each_invariant tensor_add
        (λ t, size t = size first)); [|done].
      intros s x s' _ Hs Hadd. apply tensor_add_Ok in Hadd as (_ & Hs' & _).
      congruence. }
  split.
  - eapply Forall_impl; [exact Hsizes|]. simpl. intros. congruence.
  - intros i Hi. unfold numel in Hi. rewrite Hgm in Hi.
    destruct (sum_loop_entry ms _ gm i 0 H) as (_ & _ & Hentry);
      [simpl; by apply lookup_replicate_2|by apply Hsome|].
    by rewrite Hentry.
Qed.



(** ** The guarded paths *)

(** With a prune number of zero the layer-local allocators keep every
    cell of a non-empty metric. *)
Lemma prune_num_zero_keeps_all (metric : tensor Z) :
  storage metric ≠ [] →
  ∃ m, tensor_min metric = Ok m ∧
       select_threshold metric 0 = Ok (m - 1) ∧
       tensor_gt metric (m - 1)
       = Tensor (size metric) (replicate (length (storage metric)) 1).
Proof.
  intros Hne. destruct (list_min_is_Ok _ Hne) as [m Hm]. exists m.
  unfold select_threshold, tensor_min. rewrite Hm. simpl.
  split_and!; [done..|]. apply tensor_gt_all_kept.
  apply list_min_spec in Hm as [_ Hm]. apply Forall_forall.
  intros x Hx. specialize (Hm x Hx). lia.
Qed.

(** With continuous-mask mode off a call leaves the metrics as they are. *)
Lemma metrics_unchanged_without_continuous `{self : SparsityAllocator}
    (metrics : metrics_dict) masks metrics' :
  continuous_mask = false →
  generate_sparsity metrics = Ok (masks, metrics') → metrics' = metrics.
Proof.
  intros Hoff.
  apply (for_each_invariant generate_layer (λ st, st.2 = metrics)); [|done].
  intros [masks0 metrics0] [name w] st' _ Hst H. simpl in Hst. subst metrics0.
  unfold generate_layer in H.
  inv_bind H as u Hu. inv_bind H as metric Hmetric. inv_bind H as mm Hmm.
  destruct mm as [metric' metrics1]. inv_bind H as t Ht.
  inv_bind H as m Hm. inv_bind H as m' Hm'. injection H as <-.
  unfold continuous_metric in Hmm. rewrite Hoff in Hmm. by injection Hmm as _ <-.
Qed.

Lemma dependency_metrics_unchanged_without_continuous
    `{self : SparsityAllocator} channel_depen group_depen
    (metrics : metrics_dict) masks metrics' :
  continuous_mask = false →
  dependency_generate_sparsity channel_depen group_depen metrics
  = Ok (masks, metrics') →
  metrics' = metrics.
Proof.
  intros Hoff H. unfold dependency_generate_sparsity in H.
  inv_bind H as st Hst. destruct st as [grouped metrics1].
  inv_bind H as masks1 Hmasks1. injection H as _ <-.
  revert Hst.
  apply (for_each_invariant collect_group (λ st, st.2 = metrics) _ _
           (grouped, metrics1)); [|done].
  intros [grouped0 metrics0] names st' _ Hst H. simpl in Hst. subst metrics0.
  unfold collect_group in H. rewrite Hoff in H. simpl in H.
  by case_bool_decide; injection H as <-.
Qed.

(** ** The Block allocator on the all-ones mask *)

Lemma bind_const_length {A B} (f : A → list B) (l : list A) (c : nat) :
  Forall (λ x, length (f x) = c) l → length (l ≫= f) = (length l * c)%nat.
Proof.
  induction 1 as [|x l Hx _ IH]; [done|].
  rewrite bind_cons, length_app, Hx, IH. simpl. lia.
Qed.


Lemma pool_out_bounds (n k : nat) :
  (1 ≤ n)%nat → (1 ≤ k)%nat →
  (1 ≤ pool_out n k ∧ n ≤ pool_out n k * k ∧ (pool_out n k - 1) * k < n)%nat.
Proof.
  intros Hn Hk. unfold pool_out.
  pose proof (Nat.div_mod (n + k - 1) k ltac:(lia)) as Hdiv.
  pose proof (Nat.mod_upper_bound (n + k - 1) k ltac:(lia)) as Hmod.
  split_and!; nia.
Qed.

Lemma pool_window_spec (n k o : nat) :
  (1 ≤ n)%nat → (1 ≤ k)%nat → (o < pool_out n k)%nat →
  pool_window n k o ≠ [] ∧ Forall (λ r, r < n)%nat (pool_window n k o).
Proof.
  intros Hn Hk Ho. destruct (pool_out_bounds n k Hn Hk) as (_ & _ & Hlast).
  assert (o * k < n)%nat by nia.
  unfold pool_window. split.
  - intros Hnil%(f_equal length). rewrite length_seq in Hnil. simpl in Hnil. lia.
  - apply Forall_forall. intros r Hr%elem_of_seq. lia.
Qed.








(** * Further properties *)

(** ** The Block allocator: reducing and expanding by blocks *)

Lemma bind_singleton_fmap {A B} (g : A → B) (l : list A) :
  l ≫= (λ x, [g x]) = g <$> l.
Proof. induction l as [|x l IH]; [done|]. rewrite bind_cons, IH. done. Qed.

Lemma bind_lookup_const {A B} (f : A → list B) (l : list A) (c i j : nat) :
  Forall (λ x, length (f x) = c) l → (j < c)%nat →
  (l ≫= f) !! (i * c + j)%nat = l !! i ≫= λ x, f x !! j.
Proof.
  intros Hall Hj. revert i. induction Hall as [|x l Hx _ IH]; intros i.
  - done.
  - rewrite bind_cons. destruct i as [|i]; simpl.
    + rewrite lookup_app_l by lia. done.
    + rewrite lookup_app_r by lia. rewrite Hx.
      replace (c + i * c + j - c)%nat with (i * c + j)%nat by lia. apply IH.
Qed.

Lemma avg_pool_plane_lookup (h w kh kw : nat) (plane : list Q) (oh ow : nat) :
  (oh < pool_out h kh)%nat → (ow < pool_out w kw)%nat →
  avg_pool_plane h w kh kw plane !! (oh * pool_out w kw + ow)%nat
  = Some (let cells :=
            r ← pool_window h kh oh;
            c ← pool_window w kw ow;
            [default 0%Q (plane !! (r * w + c)%nat)] in
          (sum_listQ cells / inject_Z (Z.of_nat (length cells)))%Q).
Proof.
  intros Hoh How. unfold avg_pool_plane.
  rewrite (bind_lookup_const _ _ (pool_out w kw)); [| |done].
  - rewrite lookup_seq_lt by done. simpl.
    rewrite bind_singleton_fmap, list_lookup_fmap, lookup_seq_lt by done. done.
  - apply Forall_forall. intros x _.
    rewrite bind_singleton_fmap, length_fmap, length_seq. done.
Qed.

Lemma avg_pool_plane_length (h w kh kw : nat) (plane : list Q) :
  length (avg_pool_plane h w kh kw plane) = (pool_out h kh * pool_out w kw)%nat.
Proof.
  unfold avg_pool_plane.
  rewrite (bind_const_length _ _ (pool_out w kw)); [by rewrite length_seq|].
  apply Forall_forall. intros x _.
  rewrite bind_singleton_fmap, length_fmap, length_seq. done.
Qed.

Lemma sum_inject (cells : list Z) :
  (sum_listQ (inject_Z <$> cells) == inject_Z (sum_listZ cells))%Q.
Proof.
  induction cells as [|x l IH]; [done|].
  rewrite fmap_cons. simpl. rewrite IH, inject_Z_plus. done.
Qed.

Lemma sum_nonneg_zero (cells : list Z) :
  Forall (λ x, 0 ≤ x) cells →
  0 ≤ sum_listZ cells ∧ (sum_listZ cells = 0 ↔ Forall (eq 0) cells).
Proof.
  induction 1 as [|x l Hx _ [IH1 IH2]]; simpl.
  - split; [lia|]. split; [constructor|done].
  - split; [lia|]. rewrite Forall_cons. split.
    + intros Hs. split; [lia|]. apply IH2. lia.
    + intros [<- Hl]. apply IH2 in Hl. lia.
Qed.

(** A block of non-negative cells is reduced to 0 when all its cells are
    0, and to 1 otherwise. *)
Lemma ne_zero_avg (cells : list Z) :
  cells ≠ [] → Forall (λ x, 0 ≤ x) cells →
  ne_zero (sum_listQ (inject_Z <$> cells)
           / inject_Z (Z.of_nat (length (inject_Z <$> cells))))%Q
  = if bool_decide (Forall (eq 0) cells) then 0 else 1.
Proof.
  intros Hne Hall. rewrite length_fmap.
  assert (¬ (inject_Z (Z.of_nat (length cells)) == 0)%Q) as Hnz.
  { intros Hq%inject_nat_zero. by destruct cells. }
  destruct (sum_nonneg_zero cells Hall) as [Hsum Hiff].
  unfold ne_zero. destruct (Qeq_bool _ 0) eqn:Hz.
  - apply Qeq_bool_iff in Hz. rewrite sum_inject in Hz.
    rewrite bool_decide_eq_true_2; [done|]. apply Hiff.
    assert (inject_Z (sum_listZ cells) == 0)%Q as H0.
    { rewrite <-(Qmult_div_r (inject_Z (sum_listZ cells))
                   (inject_Z (Z.of_nat (length cells)))) by done.
      rewrite Hz. ring. }
    unfold Qeq in H0. simpl in H0. lia.
  - rewrite bool_decide_eq_false_2; [done|]. intros Hzero%Hiff.
    apply Qeq_bool_neq in Hz. apply Hz. rewrite sum_inject, Hzero.
    unfold Qdiv. ring.
Qed.

Lemma inject_lookup_default (m : list Z) (i : nat) :
  default 0%Q ((inject_Z <$> m) !! i) = inject_Z (default 0 (m !! i)).
Proof. rewrite list_lookup_fmap. by destruct (m !! i). Qed.

Lemma block_cells_inject (h w kh kw : nat) (m : list Z) (oh ow : nat) :
  (r ← pool_window h kh oh;
   c ← pool_window w kw ow;
   [default 0%Q ((inject_Z <$> m) !! (r * w + c)%nat)])
  = inject_Z <$> block_cells h w kh kw m oh ow.
Proof.
  unfold block_cells. induction (pool_window h kh oh) as [|r rs IH]; [done|].
  rewrite !bind_cons, fmap_app, IH. f_equal.
  rewrite !bind_singleton_fmap, <-list_fmap_compose. apply list_fmap_ext.
  intros _ c _. simpl. apply inject_lookup_default.
Qed.

Lemma block_cells_spec (h w kh kw : nat) (m : list Z) (oh ow : nat) :
  (1 ≤ h)%nat → (1 ≤ w)%nat → (1 ≤ kh)%nat → (1 ≤ kw)%nat →
  (oh < pool_out h kh)%nat → (ow < pool_out w kw)%nat →
  block_cells h w kh kw m oh ow ≠ [] ∧
  ∀ x, x ∈ block_cells h w kh kw m oh ow ↔
    ∃ r c, (oh * kh ≤ r < Nat.min h ((oh + 1) * kh))%nat ∧
           (ow * kw ≤ c < Nat.min w ((ow + 1) * kw))%nat ∧
           x = default 0 (m !! (r * w + c)%nat).
Proof.
  intros Hh Hw Hkh Hkw Hoh How.
  destruct (pool_window_spec h kh oh) as [Hne1 Hall1]; [lia..|].
  destruct (pool_window_spec w kw ow) as [Hne2 Hall2]; [lia..|].
  unfold block_cells. split.
  - destruct (pool_window h kh oh) as [|r rs]; [done|].
    destruct (pool_window w kw ow) as [|c cs]; [done|].
    rewrite bind_cons, bind_cons. done.
  - intros x. rewrite list_elem_of_bind. split.
    + intros (r & (c & Hx & Hc)%list_elem_of_bind & Hr).
      apply list_elem_of_singleton in Hx. unfold pool_window in Hr, Hc.
      apply elem_of_seq in Hr, Hc. exists r, c. split_and!; [lia..|done].
    + intros (r & c & Hr & Hc & ->). exists r. split.
      * apply list_elem_of_bind. exists c. split; [by left|].
        unfold pool_window. apply elem_of_seq. lia.
      * unfold pool_window. apply elem_of_seq. lia.
Qed.

Lemma compress_blocks (h w kh kw : nat) (m : list Z) :
  (1 ≤ h)%nat → (1 ≤ w)%nat → (1 ≤ kh)%nat → (1 ≤ kw)%nat →
  length m = (h * w)%nat → Forall (λ x, 0 ≤ x) m →
  Block.compress_mask None (Some [kh; kw]) (Tensor [h; w]%nat m)
  = Ok (Tensor [pool_out h kh; pool_out w kw]
          (block_any h w kh kw m <$> seq 0 (pool_out h kh * pool_out w kw))).
Proof.
  intros Hh Hw Hkh Hkw Hlen Hall.
  unfold Block.compress_mask, clone. simpl.
  unfold avg_pool2d. simpl.
  rewrite bool_decide_eq_true_2 by lia. simpl.
  unfold tensor_map, squeeze0. simpl. f_equal. f_equal.
  rewrite app_nil_r, drop_0.
  rewrite take_ge by (rewrite length_fmap; lia).
  apply list_eq. intros i. rewrite !list_lookup_fmap.
  destruct (decide (i < pool_out h kh * pool_out w kw)%nat) as [Hi|Hi].
  - rewrite lookup_seq_lt by done. simpl.
    destruct (pool_out_bounds w kw Hw Hkw) as (How & _).
    assert (i = (i / pool_out w kw * pool_out w kw + i mod pool_out w kw)%nat)
      as Hidx.
    { rewrite (Nat.div_mod_eq i (pool_out w kw)) at 1. lia. }
    assert (i / pool_out w kw < pool_out h kh)%nat as Hq.
    { apply Nat.Div0.div_lt_upper_bound. lia. }
    assert (i mod pool_out w kw < pool_out w kw)%nat as Hr.
    { apply Nat.mod_upper_bound. lia. }
    rewrite Hidx at 1. rewrite avg_pool_plane_lookup by done. simpl.
    rewrite block_cells_inject. f_equal.
    destruct (block_cells_spec h w kh kw m _ _ Hh Hw Hkh Hkw Hq Hr)
      as [Hne Hcells].
    unfold block_any. apply ne_zero_avg; [done|].
    apply Forall_forall. intros x (r & c & Hr' & Hc' & ->)%Hcells.
    destruct (m !! (r * w + c)%nat) as [y|] eqn:Hy; [|done]. simpl.
    rewrite Forall_forall in Hall. apply Hall.
    by eapply list_elem_of_lookup_2.
  - rewrite lookup_seq_ge by lia. simpl.
    rewrite (lookup_ge_None_2 (avg_pool_plane _ _ _ _ _)); [done|].
    rewrite avg_pool_plane_length. lia.
Qed.






(** X1. [BlockSparsityAllocator._compress_mask] with a block size, on a
    mask of two axes without negative entries: the reduced mask has
    [ceil(h / kh)] x [ceil(w / kw)] entries, each of them 0 or 1, and an
    entry is 0 exactly when every cell of its block (cut at the border of
    the mask) is 0. *)
Theorem block_compress_marks_touched_blocks (h w kh kw : nat) (m : list Z) :
  (1 ≤ h)%nat → (1 ≤ w)%nat → (1 ≤ kh)%nat → (1 ≤ kw)%nat →
  length m = (h * w)%nat → Forall (λ x, 0 ≤ x) m →
  ∃ reduced,
    Block.compress_mask None (Some [kh; kw]%nat) (Tensor [h; w]%nat m)
    = Ok reduced ∧
    size reduced = [pool_out h kh; pool_out w kw] ∧
    tensor_wf reduced ∧
    ∀ oh ow, (oh < pool_out h kh)%nat → (ow < pool_out w kw)%nat →
      ∃ x, storage reduced !! (oh * pool_out w kw + ow)%nat = Some x ∧
           (x = 0 ∨ x = 1) ∧
           (x = 0 ↔
            ∀ r c, (oh * kh ≤ r < Nat.min h ((oh + 1) * kh))%nat →
                   (ow * kw ≤ c < Nat.min w ((ow + 1) * kw))%nat →
                   m !! (r * w + c)%nat = Some 0).
Proof.
  intros Hh Hw Hkh Hkw Hlen Hall. eexists. split; [by apply compress_blocks|].
  split_and!; [done|..].
  - unfold tensor_wf, numel. simpl. rewrite length_fmap, length_seq. lia.
  - intros oh ow Hoh How. simpl.
    rewrite list_lookup_fmap, lookup_seq_lt by nia. simpl.
    eexists. split; [done|]. unfold block_any.
    rewrite Nat.div_add_l, Nat.div_small, Nat.add_0_r by lia.
    rewrite (Nat.add_comm (oh * _)), Nat.Div0.mod_add, Nat.mod_small by done.
    destruct (block_cells_spec h w kh kw m oh ow) as [_ Hcells]; [done..|].
    assert (∀ r c, (r < h)%nat → (c < w)%nat →
              default 0 (m !! (r * w + c)%nat) = 0
              ↔ m !! (r * w + c)%nat = Some 0) as Hsome.
    { intros r c Hr Hc.
      destruct (lookup_lt_is_Some_2 m (r * w + c)) as [y Hy]; [nia|].
      rewrite Hy. simpl. split; [by intros ->|by intros [= ->]]. }
    case_bool_decide as Hzero; (split; [by auto|]).
    + split; [|done]. intros _ r c Hr Hc. apply Hsome; [lia..|].
      rewrite Forall_forall in Hzero. symmetry. apply Hzero, Hcells.
      by exists r, c.
    + split; [done|]. intros Hblock. exfalso. apply Hzero.
      apply Forall_forall. intros x (r & c & Hr & Hc & ->)%Hcells.
      symmetry. apply Hsome; [lia..|]. by apply Hblock.
Qed.

Lemma block_compress_marks_touched_blocks_witness :
  ∃ reduced,
    Block.compress_mask None (Some [2; 2]%nat) uniform_mask = Ok reduced ∧
    size reduced = [1; 2]%nat ∧
    tensor_wf reduced ∧
    ∀ oh ow, (oh < 1)%nat → (ow < 2)%nat →
      ∃ x, storage reduced !! (oh * 2 + ow)%nat = Some x ∧
           (x = 0 ∨ x = 1) ∧
           (x = 0 ↔
            ∀ r c, (oh * 2 ≤ r < Nat.min 2 ((oh + 1) * 2))%nat →
                   (ow * 2 ≤ c < Nat.min 3 ((ow + 1) * 2))%nat →
                   [1; 1; 0; 1; 1; 0] !! (r * 3 + c)%nat = Some 0).
Proof.
  apply (block_compress_marks_touched_blocks 2 3 2 2 [1; 1; 0; 1; 1; 0]);
    [lia..|reflexivity|repeat constructor; lia].
Defined.

(** X2. Whatever [_compress_mask] of the Block allocator returns is a mask
    of zeros and ones, for every [dim], block size and input. *)
Theorem block_compress_is_binary dims bss (mask reduced : tensor Z) :
  Block.compress_mask dims bss mask = Ok reduced →
  Forall (λ x, x = 0 ∨ x = 1) (storage reduced).
Proof.
  unfold Block.compress_mask. intros H.
  inv_bind H as summed Hsummed. inv_bind H as pooled Hpooled.
  injection H as <-. simpl. apply Forall_fmap, Forall_forall.
  intros q _. simpl. unfold ne_zero. destruct (Qeq_bool q 0); auto.
Qed.

Lemma block_compress_is_binary_witness :
  Forall (λ x, x = 0 ∨ x = 1) [1; 0].
Proof.
  apply (block_compress_is_binary None (Some [2; 2]%nat)
           (Tensor [2; 3]%nat [5; 0; 0; 0; 7; 0]) (Tensor [1; 2]%nat [1; 0])).
  reflexivity.
Defined.


Lemma ne_zero_inject (x : Z) :
  ne_zero (inject_Z x) = if bool_decide (x = 0) then 0 else 1.
Proof.
  unfold ne_zero. destruct (Qeq_bool (inject_Z x) 0) eqn:Hx.
  - apply Qeq_bool_iff in Hx. unfold Qeq in Hx. simpl in Hx.
    rewrite bool_decide_eq_true_2 by lia. done.
  - apply Qeq_bool_neq in Hx. rewrite bool_decide_eq_false_2; [done|].
    intros ->. by apply Hx.
Qed.

(** X4. Without a block size, and with [dim] absent or naming every axis,
    [_compress_mask] is the test [mask != 0]; a mask of zeros and ones is
    returned as it is. *)
Theorem block_compress_without_blocks dims (mask : tensor Z) :
  match dims with
  | None => True
  | Some ds => length ds = length (size mask)
  end →
  Block.compress_mask dims None mask
  = Ok (tensor_map (λ x, if bool_decide (x = 0) then 0 else 1) mask) ∧
  (Forall (λ x, x = 0 ∨ x = 1) (storage mask) →
   Block.compress_mask dims None mask = Ok mask).
Proof.
  intros Hdims.
  assert (Block.compress_mask dims None mask
          = Ok (tensor_map (λ x, if bool_decide (x = 0) then 0 else 1) mask))
    as Heq.
  { unfold Block.compress_mask, clone.
    assert (∀ t : tensor Z,
      tensor_map ne_zero (tensor_map inject_Z t)
      = tensor_map (λ x, if bool_decide (x = 0) then 0 else 1) t) as Hmap.
    { intros t. unfold tensor_map. simpl. f_equal.
      rewrite <-list_fmap_compose. apply list_fmap_ext.
      intros _ x _. apply ne_zero_inject. }
    destruct dims as [ds|]; simpl.
    - rewrite (bool_decide_eq_true_2 (length ds = _)) by done.
      rewrite orb_true_r. simpl. by rewrite Hmap.
    - by rewrite Hmap. }
  split; [done|]. intros Hbin. rewrite Heq. f_equal.
  destruct mask as [sz st]. unfold tensor_map. simpl in *. f_equal.
  rewrite <-(list_fmap_id st) at 2. apply list_fmap_ext.
  intros i x Hx. rewrite Forall_forall in Hbin.
  by destruct (Hbin x (list_elem_of_lookup_2 _ _ _ Hx)) as [->| ->].
Qed.

Lemma block_compress_without_blocks_witness :
  Block.compress_mask (Some [0; 1]%nat) None (Tensor [2; 2]%nat [3; 0; 0; 1])
  = Ok (Tensor [2; 2]%nat [1; 0; 0; 1]) ∧
  (Forall (λ x, x = 0 ∨ x = 1) [3; 0; 0; 1] →
   Block.compress_mask (Some [0; 1]%nat) None (Tensor [2; 2]%nat [3; 0; 0; 1])
   = Ok (Tensor [2; 2]%nat [3; 0; 0; 1])).
Proof.
  apply (block_compress_without_blocks (Some [0; 1]%nat)
           (Tensor [2; 2]%nat [3; 0; 0; 1])).
  reflexivity.
Defined.

(** ** The Block allocator: what [_expand_mask] returns *)

Lemma ravel_unravel (sz : list nat) (j : nat) :
  (j < prod_list sz)%nat →
  ravel sz (zip_with (λ s i, if bool_decide (s = 1%nat) then 0%nat else i)
              sz (unravel sz j)) = j.
Proof.
  revert j. induction sz as [|s sz IH]; intros j Hj; simpl in *; [lia|].
  assert (0 < prod_list sz)%nat as Hpos by (destruct (prod_list sz); lia).
  rewrite IH by (apply Nat.mod_upper_bound; lia).
  pose proof (Nat.div_mod_eq j (prod_list sz)) as Hdiv.
  case_bool_decide as Hs; [|lia].
  subst s. rewrite Nat.div_small in Hdiv by lia. lia.
Qed.

(** Expanding a tensor to its own size changes nothing. *)
Lemma tensor_expand_same (t : tensor Z) :
  tensor_wf t → tensor_expand t (size t) = Ok t.
Proof.
  intros Hwf. unfold tensor_expand. rewrite Nat.sub_diag. simpl.
  rewrite bool_decide_eq_true_2.
  2:{ split; [done|]. apply Forall2_same_length_lookup. split; [done|].
      intros i s d Hs Hd. left. congruence. }
  destruct t as [sz st]. unfold tensor_wf, numel in Hwf. simpl in *.
  f_equal. f_equal. apply list_eq. intros i. rewrite list_lookup_fmap.
  destruct (decide (i < prod_list sz)%nat) as [Hi|Hi].
  - rewrite lookup_seq_lt by done. simpl. rewrite ravel_unravel by done.
    destruct (lookup_lt_is_Some_2 st i) as [x Hx]; [lia|]. by rewrite Hx.
  - rewrite lookup_seq_ge by lia. simpl. symmetry.
    apply lookup_ge_None_2. lia.
Qed.

(** [idxs.pop(i)] takes one entry away each time it returns. *)
Lemma pop_loop_length (pops idxs idxs' : list nat) :
  for_each (λ l i, list_pop i l) pops idxs = Ok idxs' →
  (length idxs' + length pops = length idxs)%nat.
Proof.
  revert idxs. induction pops as [|i pops IH]; intros idxs H; simpl in H.
  - injection H as <-. simpl. lia.
  - inv_bind H as l Hl. apply IH in H. unfold list_pop in Hl.
    case_bool_decide as Hi; [|done]. injection Hl as <-.
    rewrite length_delete in H by (by apply lookup_lt_is_Some_2). simpl. lia.
Qed.

Lemma resize_Ok {A} (t t' : tensor A) (sz : list nat) :
  resize_ t sz = Ok t' → size t' = sz ∧ tensor_wf t'.
Proof.
  unfold resize_. case_bool_decide as Hfit; [|done]. intros [= <-].
  split; [done|]. unfold tensor_wf, numel. simpl. rewrite length_take. lia.
Qed.

(** X5. What [_expand_mask] of the Block allocator returns: the layer is
    a wrapped layer, and the weight mask has the size of the weight.
    Without [dim] there is no bias mask; the assertion of line 147 cannot
    fail.  With [dim] the call returns only when [dim] names as many axes
    as the weight has, and the weight mask is then the one the call
    returns without [dim]. *)
Theorem block_expand_returns_weight_size p dims bss name (mask : tensor Z) m :
  Block.expand_mask p dims bss name mask = Ok m →
  ∃ w, dict_get (get_modules_wrapper p) name = Ok w ∧
       size (weight m) = weight_size w ∧
       tensor_wf (weight m) ∧
       match dims with
       | None => bias m = None
       | Some ds =>
           length ds = length (weight_size w) ∧
           Block.expand_mask p None bss name mask = Ok (MaskDict (weight m) None)
       end.
Proof.
  unfold Block.expand_mask. intros H.
  inv_bind H as tiled Htiled. rewrite Htiled. simpl.
  inv_bind H as w Hw. rewrite Hw. simpl. exists w. split; [done|].
  inv_bind H as resized Hresized. rewrite Hresized. simpl.
  destruct (resize_Ok _ _ _ Hresized) as [Hsize Hwf].
  destruct dims as [ds|].
  - inv_bind H as u1 Hlen. apply py_assert_Ok, bool_decide_eq_true in Hlen.
    inv_bind H as u2 Hsizes. inv_bind H as idxs Hidxs.
    inv_bind H as unsqueezed Hun. inv_bind H as expanded Hexp.
    injection H as <-. simpl.
    apply pop_loop_length in Hidxs.
    rewrite length_reverse, length_seq, <-Hlen, Hsize in Hidxs.
    assert (idxs = []) as -> by (destruct idxs; [done|simpl in Hidxs; lia]).
    simpl in Hun. injection Hun as <-.
    rewrite <-Hsize, tensor_expand_same in Hexp by done.
    injection Hexp as <-. unfold clone.
    rewrite bool_decide_eq_true_2 by done. simpl.
    split_and!; [done..|congruence|done].
  - inv_bind H as u Hu. injection H as <-. simpl. done.
Qed.

Lemma block_expand_returns_weight_size_witness :
  ∃ w, dict_get (get_modules_wrapper block_pruner) "fc" = Ok w ∧
       size (Tensor [2; 3]%nat [1; 1; 0; 0; 1; 1]) = weight_size w ∧
       tensor_wf (Tensor [2; 3]%nat [1; 1; 0; 0; 1; 1]) ∧
       length [0; 1]%nat = length (weight_size w) ∧
       Block.expand_mask block_pruner None (Some [2; 2]%nat) "fc"
         (Tensor [1; 2]%nat [1; 0])
       = Ok (MaskDict (Tensor [2; 3]%nat [1; 1; 0; 0; 1; 1]) None).
Proof.
  apply (block_expand_returns_weight_size block_pruner (Some [0; 1]%nat)
           (Some [2; 2]%nat) "fc" (Tensor [1; 2]%nat [1; 0])
           (MaskDict (Tensor [2; 3]%nat [1; 1; 0; 0; 1; 1]) None)).
  reflexivity.
Defined.

(** X6. [_expand_mask] for a name that is no wrapped layer raises: the
    lookup of line 140 raises [KeyError], after the tiling if there is a
    block size. *)
Theorem block_expand_unknown_layer p dims bss name (mask : tensor Z) :
  name ∉ (get_modules_wrapper p).*1 →
  (∃ e, Block.expand_mask p dims bss name mask = Raise e) ∧
  Block.expand_mask p dims None name mask = Raise KeyError.
Proof.
  intros Hname.
  assert (dict_get (get_modules_wrapper p) name = Raise KeyError) as Hget.
  { unfold dict_get. by rewrite (not_elem_of_list_to_map_1 _ _ Hname). }
  split.
  - unfold Block.expand_mask.
    destruct (match bss with Some b => _ | None => _ end) as [t|e]; simpl;
      [|by eexists].
    rewrite Hget. simpl. by eexists.
  - unfold Block.expand_mask. simpl. by rewrite Hget.
Qed.

Lemma block_expand_unknown_layer_witness :
  (∃ e, Block.expand_mask block_pruner None (Some [2; 2]%nat) "conv"
          (Tensor [1; 2]%nat [1; 0]) = Raise e) ∧
  Block.expand_mask block_pruner None None "conv" (Tensor [1; 2]%nat [1; 0])
  = Raise KeyError.
Proof.
  apply (block_expand_unknown_layer block_pruner None (Some [2; 2]%nat) "conv"
           (Tensor [1; 2]%nat [1; 0])).
  apply (bool_decide_unpack _). by vm_compute.
Defined.







(** ** The layer-local allocators: when the threshold exists *)


Lemma py_int_nonneg (q : Q) : (0 <= q)%Q → 0 ≤ py_int q.
Proof.
  intros Hq. rewrite py_int_floor by done.
  rewrite <-(Qfloor_Z 0). by apply Qfloor_resp_le.
Qed.

Lemma select_threshold_returns (metric : tensor Z) (k : Z) :
  storage metric ≠ [] → 0 ≤ k ≤ Z.of_nat (length (storage metric)) →
  ∃ t, select_threshold metric k = Ok t.
Proof.
  intros Hne Hk. destruct (decide (k = 0)) as [->|Hk0].
  - destruct (prune_num_zero_keeps_all metric Hne) as (m & _ & Ht & _). eauto.
  - destruct (max_of_smallest (storage metric) k) as (t & Htop & Hmax & _);
      [lia|].
    exists t. unfold select_threshold.
    rewrite bool_decide_eq_false_2 by done. by rewrite Htop.
Qed.

(** X10. Lines 33 to 37 of the layer-local allocators return a threshold
    exactly when the metric is not empty and the prune number lies between
    0 and the number of its entries; otherwise they raise [RuntimeError].
    So a rate between 0 and 1 always has a threshold, and a rate that asks
    for more entries than the metric has raises. *)
Theorem threshold_exists_iff (metric : tensor Z) :
  (∀ k, (∃ t, select_threshold metric k = Ok t)
        ↔ storage metric ≠ [] ∧ 0 ≤ k ≤ Z.of_nat (length (storage metric))) ∧
  (∀ k e, select_threshold metric k = Raise e → e = RuntimeError) ∧
  (∀ rate : Q, tensor_wf metric → storage metric ≠ [] →
     (0 <= rate)%Q → (rate <= 1)%Q →
     ∃ t, select_threshold metric (prune_num_of rate metric) = Ok t).
Proof.
  split_and!.
  - intros k. split.
    + intros [t Ht]. unfold select_threshold in Ht. case_bool_decide as Hk.
      * inv_bind Ht as m Hm. subst k. split; [|lia].
        intros Hnil. unfold tensor_min in Hm. by rewrite Hnil in Hm.
      * inv_bind Ht as smallest Htop.
        apply topk_smallest_Ok in Htop as [Hk' _].
        split; [|lia]. intros Hnil. rewrite Hnil in Hk'. simpl in Hk'. lia.
    + intros [Hne Hk]. by apply select_threshold_returns.
  - intros k e. unfold select_threshold, tensor_min, topk_smallest.
    case_bool_decide.
    + destruct (storage metric); simpl; congruence.
    + case_bool_decide; [|simpl; congruence]. simpl.
      destruct (take _ _); simpl; congruence.
  - intros rate Hwf Hne Hlo Hhi. apply select_threshold_returns; [done|].
    split.
    + apply py_int_nonneg, Qmult_le_0_compat; [done|apply inject_nat_nonneg].
    + rewrite Hwf. by apply prune_num_le.
Qed.

Lemma threshold_exists_iff_witness :
  let metric := Tensor [4]%nat [5; 1; 2; 3] in
  ((∃ t, select_threshold metric 2 = Ok t)
   ↔ storage metric ≠ [] ∧ 0 ≤ 2 ≤ Z.of_nat (length (storage metric))) ∧
  ∃ t, select_threshold metric (prune_num_of (1 # 2)%Q metric) = Ok t.
Proof.
  intros metric. destruct (threshold_exists_iff metric) as (Hiff & _ & Hrate).
  split; [apply Hiff|].
  apply Hrate; [reflexivity|done|by vm_compute|by vm_compute].
Defined.



(** X12. A larger rate prunes at least what a smaller rate prunes: on
    one metric the threshold does not decrease with the rate, every
    entry pruned at the smaller rate is pruned at the larger one, and the
    number of pruned entries does not decrease. *)
Theorem larger_rate_prunes_more (rate rate' : Q) (metric : tensor Z) t t' :
  (rate <= rate')%Q →
  select_threshold metric (prune_num_of rate metric) = Ok t →
  select_threshold metric (prune_num_of rate' metric) = Ok t' →
  t ≤ t' ∧
  (∀ i, storage (tensor_gt metric t) !! i = Some 0 →
        storage (tensor_gt metric t') !! i = Some 0) ∧
  (count_zero (storage (tensor_gt metric t))
   ≤ count_zero (storage (tensor_gt metric t')))%nat.
Proof.
  intros Hrate Ht Ht'.
  pose proof (prune_num_mono rate rate' metric Hrate) as Hk.
  set (k := prune_num_of rate metric) in *.
  set (k' := prune_num_of rate' metric) in *.
  assert (t ≤ t') as Hle.
  { unfold select_threshold in Ht, Ht'.
    destruct (decide (k = 0)) as [Hk0|Hk0].
    - rewrite bool_decide_eq_true_2 in Ht by done.
      inv_bind Ht as m Hm. injection Ht as <-.
      apply list_min_spec in Hm as [_ Hm].
      destruct (decide (k' = 0)) as [Hk0'|Hk0'].
      + rewrite bool_decide_eq_true_2 in Ht' by done.
        inv_bind Ht' as m' Hm'. injection Ht' as <-.
        apply list_min_spec in Hm' as [Hin _].
        specialize (Hm m' Hin). lia.
      + rewrite bool_decide_eq_false_2 in Ht' by done.
        inv_bind Ht' as smallest' Htop'.
        apply list_max_spec in Ht' as [Hin _].
        apply topk_smallest_Ok in Htop' as [_ ->].
        apply (subseteq_take _ _) in Hin. rewrite sorted_perm in Hin.
        specialize (Hm t' Hin). lia.
    - rewrite bool_decide_eq_false_2 in Ht by done.
      inv_bind Ht as smallest Htop.
      assert (0 < k) as Hpos
        by (pose proof (topk_smallest_Ok _ _ _ Htop) as [? _]; lia).
      rewrite bool_decide_eq_false_2 in Ht' by lia.
      inv_bind Ht' as smallest' Htop'.
      destruct (threshold_of_rank _ k _ t Hpos Htop Ht) as [_ Hr].
      destruct (threshold_of_rank _ k' _ t' ltac:(lia) Htop' Ht') as [_ Hr'].
      eapply (strongly_sorted_lookup_le (sorted (storage metric))
                (Z.to_nat k - 1) (Z.to_nat k' - 1));
        [apply sorted_strongly|lia|done..]. }
  split_and!; [done| |].
  - intros i. simpl. rewrite !list_lookup_fmap.
    destruct (storage metric !! i) as [x|]; [|done]. simpl.
    unfold gt_mask. repeat case_bool_decide; try done. lia.
  - simpl. rewrite !count_zero_gt. by apply pruned_by_mono.
Qed.

Lemma larger_rate_prunes_more_witness :
  let metric := Tensor [4; 4]%nat (seqZ 0 16) in
  3 ≤ 7 ∧
  (∀ i, storage (tensor_gt metric 3) !! i = Some 0 →
        storage (tensor_gt metric 7) !! i = Some 0) ∧
  (count_zero (storage (tensor_gt metric 3))
   ≤ count_zero (storage (tensor_gt metric 7)))%nat.
Proof.
  intros metric.
  apply (larger_rate_prunes_more (1 # 4)%Q (1 # 2)%Q metric 3 7);
    [by vm_compute|reflexivity|reflexivity].
Defined.

(** ** The layer-local allocators: the layers of a call *)

Section LayerLoop.
Context `{self : SparsityAllocator}.

Lemma generate_layer_keys masks metrics name w masks' metrics' :
  generate_layer (masks, metrics) (name, w) = Ok (masks', metrics') →
  is_Some (metrics !! name) ∧
  (∃ m, masks' = <[name := m]> masks) ∧
  (metrics' = metrics ∨ ∃ metric, metrics' = <[name := metric]> metrics).
Proof.
  unfold generate_layer. intros H.
  inv_bind H as u Hu. apply py_assert_Ok, bool_decide_eq_true in Hu.
  inv_bind H as metric Hmetric. inv_bind H as mm Hmm.
  destruct mm as [metric1 metrics1]. inv_bind H as t Ht.
  inv_bind H as m Hm. inv_bind H as m' Hm'. injection H as <- <-.
  split_and!; [done|by eexists|].
  unfold continuous_metric in Hmm. destruct continuous_mask.
  - inv_bind Hmm as c Hc. inv_bind Hmm as mc Hmc. injection Hmm as <- <-.
    right. by eexists.
  - injection Hmm as <- <-. by left.
Qed.

Lemma generate_loop_keys l st st' :
  for_each generate_layer l st = Ok st' →
  (∀ name, is_Some (st'.1 !! name) ↔ is_Some (st.1 !! name) ∨ name ∈ l.*1) ∧
  (∀ name, name ∈ l.*1 → is_Some (st.2 !! name)) ∧
  (∀ name, is_Some (st'.2 !! name) ↔ is_Some (st.2 !! name)) ∧
  (∀ name, name ∉ l.*1 → st'.2 !! name = st.2 !! name).
Proof.
  revert st. induction l as [|[name w] l IH]; intros [masks metrics] H.
  - injection H as <-. split_and!; [|set_solver|done..].
    intros name. rewrite fmap_nil, elem_of_nil. tauto.
  - simpl in H. inv_bind H as st1 Hst1. destruct st1 as [masks1 metrics1].
    apply generate_layer_keys in Hst1 as (Hsome & [m ->] & Hmetrics).
    destruct (IH _ H) as (Hmasks & Hhave & Hdom & Hother). simpl in *.
    assert (∀ other, is_Some (metrics1 !! other) ↔ is_Some (metrics !! other))
      as Hdom1.
    { intros other. destruct Hmetrics as [->|[metric ->]]; [done|].
      destruct (decide (other = name)) as [->|Hne].
      - rewrite lookup_insert_eq. split; [done|by eexists].
      - by rewrite lookup_insert_ne. }
    split_and!.
    + intros other. rewrite Hmasks, elem_of_cons.
      destruct (decide (other = name)) as [->|Hne].
      * rewrite lookup_insert_eq. split; [auto|]. intros _. left. by eexists.
      * rewrite lookup_insert_ne by done. tauto.
    + intros other [->|Hin]%elem_of_cons; [done|].
      apply Hdom1. by apply Hhave.
    + intros other. by rewrite Hdom, Hdom1.
    + intros other [Hne Hnot]%not_elem_of_cons. rewrite Hother by done.
      destruct Hmetrics as [->|[metric ->]]; [done|].
      by rewrite lookup_insert_ne.
Qed.

End LayerLoop.

(** X13. A call of [generate_sparsity] of the layer-local allocators that
    returns has a mask for every wrapped layer and for no other name, every
    wrapped layer had a metric, the metrics keep their keys, and the metric
    of a name that is no wrapped layer is the one that was passed in. *)
Theorem layer_masks_for_wrapped_layers (self : SparsityAllocator)
    (metrics : metrics_dict) masks metrics' :
  generate_sparsity metrics = Ok (masks, metrics') →
  (∀ name, is_Some (masks !! name) ↔ name ∈ (get_modules_wrapper pruner).*1) ∧
  (∀ name, name ∈ (get_modules_wrapper pruner).*1 → is_Some (metrics !! name)) ∧
  (∀ name, is_Some (metrics' !! name) ↔ is_Some (metrics !! name)) ∧
  (∀ name, name ∉ (get_modules_wrapper pruner).*1 →
     metrics' !! name = metrics !! name).
Proof.
  intros H. apply generate_loop_keys in H as (Hmasks & Hhave & Hdom & Hother).
  split_and!; [|done..]. intros name. rewrite Hmasks. simpl.
  rewrite lookup_empty. split; [intros [[? [=]]|]; done|auto].
Qed.

Lemma layer_masks_for_wrapped_layers_witness :
  let self := Block.allocator continuous_pruner None None true in
  let masks : masks_dict :=
    {[ "fc"%string := MaskDict (Tensor [4]%nat [0; 1; 1; 1]) None ]} in
  let metrics' : metrics_dict := {[ "fc"%string := Tensor [4]%nat [0; 1; 2; 3] ]} in
  (∀ name, is_Some (masks !! name)
           ↔ name ∈ (get_modules_wrapper continuous_pruner).*1) ∧
  (∀ name, name ∈ (get_modules_wrapper continuous_pruner).*1 →
     is_Some (continuous_metrics !! name)) ∧
  (∀ name, is_Some (metrics' !! name) ↔ is_Some (continuous_metrics !! name)) ∧
  (∀ name, name ∉ (get_modules_wrapper continuous_pruner).*1 →
     metrics' !! name = continuous_metrics !! name).
Proof.
  intros self masks metrics'.
  apply (layer_masks_for_wrapped_layers self continuous_metrics masks metrics').
  reflexivity.
Defined.

(** X14. With continuous-mask mode off, the layer-local and the
    dependency-aware allocator leave the metrics they are given as they
    are: the in-place product of lines 32, 60 and 256 is the only write. *)
Theorem metrics_kept_without_continuous (self : SparsityAllocator) :
  continuous_mask = false →
  (∀ (metrics : metrics_dict) masks metrics',
     generate_sparsity metrics = Ok (masks, metrics') → metrics' = metrics) ∧
  (∀ channel_depen group_depen (metrics : metrics_dict) masks metrics',
     dependency_generate_sparsity channel_depen group_depen metrics
     = Ok (masks, metrics') →
     metrics' = metrics).
Proof.
  intros Hoff. split.
  - intros metrics masks metrics'.
    by apply metrics_unchanged_without_continuous.
  - intros cd gd metrics masks metrics'.
    by apply dependency_metrics_unchanged_without_continuous.
Qed.

Lemma metrics_kept_without_continuous_witness :
  let self := Block.allocator conv_pair None None false in
  (∀ (metrics : metrics_dict) masks metrics',
     generate_sparsity metrics = Ok (masks, metrics') → metrics' = metrics) ∧
  (∀ channel_depen group_depen (metrics : metrics_dict) masks metrics',
     dependency_generate_sparsity channel_depen group_depen metrics
     = Ok (masks, metrics') →
     metrics' = metrics).
Proof.
  intros self. apply (metrics_kept_without_continuous self). reflexivity.
Defined.

(** ** The Global allocator: when the group threshold exists *)

Lemma for_each_raises {A S} (body : S → A → result S) (l : list A) acc x :
  x ∈ l → (∀ s, ∃ e, body s x = Raise e) → ∃ e, for_each body l acc = Raise e.
Proof.
  intros Hx Hbody. revert acc.
  induction l as [|y l IH]; intros acc; [by apply elem_of_nil in Hx|].
  simpl. apply elem_of_cons in Hx as [<-|Hx].
  - destruct (Hbody acc) as [e ->]. by exists e.
  - destruct (body acc y) as [acc'|e]; simpl; [by apply IH|by exists e].
Qed.

Section GlobalThreshold.
Context `{self : SparsityAllocator}.

Lemma threshold_layer_Ok caps st name metric st' :
  threshold_layer caps st (name, metric) = Ok st' →
  ∃ w eff stay,
    dict_get (get_modules_wrapper pruner) name = Ok w ∧
    effective_metric w metric = Ok eff ∧
    stay_metric_num_of caps name w eff = Ok stay ∧
    is_Some (sub_thresholds st' !! name) ∧
    (∀ other, is_Some (sub_thresholds st !! other) →
              is_Some (sub_thresholds st' !! other)) ∧
    (if bool_decide (stay ≤ 0) then metric_list st' = metric_list st
     else ∃ share, metric_list st' = metric_list st ++ [share]).
Proof.
  unfold threshold_layer. intros H.
  inv_bind H as w Hw. inv_bind H as eff Heff. inv_bind H as times Htimes.
  inv_bind H as stay Hstay. exists w, eff, stay. split_and!; [done..| | |].
  - case_bool_decide.
    + inv_bind H as m Hm. injection H as <-. simpl.
      rewrite lookup_insert_eq. by eexists.
    + inv_bind H as sm Hsm. inv_bind H as sub Hsub. injection H as <-. simpl.
      rewrite lookup_insert_eq. by eexists.
  - assert (∀ v other, is_Some (sub_thresholds st !! other) →
              is_Some (<[name := v]> (sub_thresholds st) !! other)) as Hkeep.
    { intros v other Hother. destruct (decide (other = name)) as [->|Hne].
      - rewrite lookup_insert_eq. by eexists.
      - by rewrite lookup_insert_ne. }
    case_bool_decide.
    + inv_bind H as m Hm. injection H as <-. simpl. apply Hkeep.
    + inv_bind H as sm Hsm. inv_bind H as sub Hsub. injection H as <-. simpl.
      apply Hkeep.
  - case_bool_decide.
    + inv_bind H as m Hm. by injection H as <-.
    + inv_bind H as sm Hsm. inv_bind H as sub Hsub. injection H as <-. simpl.
      by eexists.
Qed.

End GlobalThreshold.

(** X15. [_calculate_threshold] of the Global allocator on an empty group
    raises [IndexError] at line 194.  When it returns for a group, every
    layer of the group has its sub-threshold, so the lookup of line 183
    cannot fail, and at least one layer of the group has a cell that may
    be pruned: a group in which every layer is protected by its cap has no
    threshold, [torch.cat] of line 225 or 227 raises. *)
Theorem global_threshold_needs_prunable_layer (self : SparsityAllocator) :
  _calculate_threshold [] = Raise IndexError ∧
  ∀ g T subs,
    _calculate_threshold g = Ok (T, subs) →
    (∀ item, item ∈ g → is_Some (subs !! item.1)) ∧
    ∃ item first w0 w eff stay,
      item ∈ g ∧ head g = Some first ∧
      dict_get (get_modules_wrapper pruner) first.1 = Ok w0 ∧
      dict_get (get_modules_wrapper pruner) item.1 = Ok w ∧
      effective_metric w item.2 = Ok eff ∧
      stay_metric_num_of (default ∅ (max_sparsity_per_layer w0)) item.1 w eff
      = Ok stay ∧
      0 < stay.
Proof.
  split; [done|]. intros g T subs H. unfold _calculate_threshold in H.
  inv_bind H as first Hfirst. apply from_option_Ok in Hfirst.
  inv_bind H as w0 Hw0. inv_bind H as st Hst. inv_bind H as pool Hpool.
  inv_bind H as threshold Ht. injection H as <- <-.
  set (caps := default ∅ (max_sparsity_per_layer w0)) in *.
  assert (∀ l st0 st1, l ⊆ g →
            for_each (threshold_layer caps) l st0 = Ok st1 →
            (∀ item, item ∈ l → is_Some (sub_thresholds st1 !! item.1)) ∧
            (∀ other, is_Some (sub_thresholds st0 !! other) →
                      is_Some (sub_thresholds st1 !! other)) ∧
            (metric_list st1 ≠ [] → metric_list st0 = [] →
             ∃ item w eff stay,
               item ∈ g ∧ dict_get (get_modules_wrapper pruner) item.1 = Ok w ∧
               effective_metric w item.2 = Ok eff ∧
               stay_metric_num_of caps item.1 w eff = Ok stay ∧ 0 < stay))
    as Hloop.
  { clear. induction l as [|[name metric] l IH]; intros st0 st1 Hsub Hrun.
    - injection Hrun as <-. split_and!; [by intros ? ?%elem_of_nil|done..].
    - simpl in Hrun. inv_bind Hrun as st' Hst'.
      destruct (threshold_layer_Ok _ _ _ _ _ Hst')
        as (w & eff & stay & Hw & Heff & Hstay & Hsub' & Hkeep & Hlist).
      destruct (IH st' st1) as (Hsubs & Hkeep' & Hprunable);
        [by intros x Hx; apply Hsub; right|done|].
      split_and!.
      + intros item [->|Hin]%elem_of_cons; [by apply Hkeep'|by apply Hsubs].
      + intros other Hother. by apply Hkeep', Hkeep.
      + intros Hne Hnil. case_bool_decide as Hle.
        * apply Hprunable; [done|congruence].
        * exists (name, metric), w, eff, stay.
          split_and!; [by apply Hsub; left|done..|lia]. }
  destruct (Hloop g _ _ ltac:(done) Hst) as (Hsubs & _ & Hprunable).
  split; [done|].
  destruct Hprunable as (item & w & eff & stay & Hin & Hw & Heff & Hstay & Hpos).
  - intros Hnil. unfold cat in Hpool. by rewrite Hnil in Hpool.
  - done.
  - exists item, first, w0, w, eff, stay. split_and!; done.
Qed.

Lemma global_threshold_needs_prunable_layer_witness :
  let self := Block.allocator (small_pair (1 # 2)) None None false in
  _calculate_threshold [] = Raise IndexError ∧
  (∀ item, item ∈ small_group →
     is_Some (({[ "layerA"%string := 2; "layerB"%string := 40 ]}
               : gmap string Z) !! item.1)) ∧
  ∃ item first w0 w eff stay,
    item ∈ small_group ∧ head small_group = Some first ∧
    dict_get (get_modules_wrapper pruner) first.1 = Ok w0 ∧
    dict_get (get_modules_wrapper pruner) item.1 = Ok w ∧
    effective_metric w item.2 = Ok eff ∧
    stay_metric_num_of (default ∅ (max_sparsity_per_layer w0)) item.1 w eff
    = Ok stay ∧
    0 < stay.
Proof.
  intros self.
  destruct (global_threshold_needs_prunable_layer self) as [Hempty Hgroup].
  split; [exact Hempty|].
  apply (Hgroup small_group 20). by vm_compute.
Defined.

(** X16. With continuous-mask mode off, a group whose total prune number
    is 0 keeps every cell of every layer: the group threshold is below the
    smallest value of the pool, which holds the smallest entry of every
    layer that has a cell to prune, and the sub-threshold of a protected
    layer is below its smallest entry. *)
Theorem global_zero_prune_keeps_all (self : SparsityAllocator)
    (g : list (string * tensor Z)) (masks0 masks : masks_dict) first w0 :
  continuous_mask = false →
  NoDup g.*1 → global_group masks0 g = Ok masks →
  head g = Some first →
  dict_get (get_modules_wrapper pruner) first.1 = Ok w0 →
  py_int (total_sparsity w0
          * inject_Z (Z.of_nat (sum_list (layer_weight_num <$> g))))%Q = 0 →
  ∀ item, item ∈ g →
    ∃ m, _expand_mask item.1
           (Tensor (size item.2) (replicate (length (storage item.2)) 1))
         = Ok m ∧
         masks !! item.1 = Some m.
Proof.
  intros Hoff Hnodup Hrun Hfirst Hw0 HK item Hitem.
  destruct (global_group_returns Hoff _ _ _ Hnodup Hrun)
    as (T & subs & first' & w0' & shares & _ & Hfirst' & Hw0' & Hall & Hpool).
  assert (first' = first) as -> by congruence.
  assert (w0' = w0) as -> by congruence.
  simpl in Hpool. rewrite HK in Hpool. simpl in Hpool.
  destruct Hpool as (pmin & Hpmin & ->).
  apply list_min_spec in Hpmin as [_ Hpmin].
  apply list_elem_of_lookup in Hitem as [i Hi].
  destruct (Forall2_lookup_l _ _ _ _ _ Hall Hi)
    as (sh & Hsh & Hshare & Hsub & m & Hm & Hmask).
  exists m. split; [|done]. rewrite <-Hm. f_equal. symmetry.
  apply tensor_gt_all_kept, Forall_forall. intros x Hx.
  destruct Hshare as (w & stay & Hw & Hstay & [(Hle & _ & Hmin)|Hcase]).
  - apply list_min_spec in Hmin as [_ Hmin]. specialize (Hmin x Hx). lia.
  - destruct Hcase as (Hpos & Hrank & times & Htimes & Heq).
    destruct (lookup_lt_is_Some_2 (sorted (storage item.2)) 0) as [y0 Hy0].
    { rewrite sorted_length. lia. }
    assert (y0 ≤ x) as Hy0x.
    { rewrite <-(sorted_perm (storage item.2)) in Hx.
      apply list_elem_of_lookup in Hx as [j Hj].
      eapply (strongly_sorted_lookup_le (sorted (storage item.2)) 0 j);
        [apply sorted_strongly|lia|done..]. }
    assert (y0 ∈ take (Z.to_nat stay) (sorted (storage item.2))) as Hy0s.
    { apply elem_of_take. exists 0%nat. split; [done|lia]. }
    assert (y0 ∈ sh.2) as Hy0sh.
    { simpl in Heq. rewrite Heq. case_bool_decide as Ht; [|done].
      apply list_elem_of_In, in_concat. eexists. split; [|by apply list_elem_of_In].
      apply list_elem_of_In, elem_of_replicate. split; [done|lia]. }
    assert (y0 ∈ concat shares.*2) as Hy0p.
    { apply list_elem_of_In, in_concat. exists sh.2.
      split; [|by apply list_elem_of_In].
      apply list_elem_of_In, list_elem_of_fmap. exists sh.
      split; [done|]. by eapply list_elem_of_lookup_2. }
    specialize (Hpmin y0 Hy0p). lia.
Qed.

Lemma global_zero_prune_keeps_all_witness :
  let p := capped_pair 0 (1 # 2) (ones [4]%nat) (ones [4]%nat) in
  let self := Block.allocator p None None false in
  let masks : masks_dict :=
    {[ "layerA"%string := flat_mask [1; 1; 1; 1];
       "layerB"%string := flat_mask [1; 1; 1; 1] ]} in
  global_group ∅ small_group = Ok masks ∧
  ∃ m, _expand_mask "layerB"%string (Tensor [4]%nat (replicate 4 1)) = Ok m ∧
       masks !! "layerB"%string = Some m.
Proof.
  intros p self masks.
  assert (global_group ∅ small_group = Ok masks) as Hrun by (by vm_compute).
  split; [exact Hrun|].
  apply (global_zero_prune_keeps_all self small_group ∅ masks
           ("layerA"%string, Tensor [4]%nat [1; 2; 3; 4])
           (layer 0 (Some {[ "layerA"%string := (1 # 2)%Q ]}) (ones [4]%nat))
           eq_refl
           ltac:(apply (bool_decide_unpack _); by vm_compute)
           Hrun eq_refl ltac:(by vm_compute) ltac:(by vm_compute)
           ("layerB"%string, Tensor [4]%nat [10; 20; 30; 40])).
  right. left.
Defined.

Section GlobalMasks.
Context `{self : SparsityAllocator}.

Lemma global_layer_keys T subs masks item masks' :
  global_layer T subs masks item = Ok masks' →
  ∃ m, masks' = <[item.1 := m]> masks.
Proof.
  destruct item as [name metric]. unfold global_layer. intros H.
  inv_bind H as sub Hsub. inv_bind H as m Hm. inv_bind H as m' Hm'.
  injection H as <-. by eexists.
Qed.

Lemma global_layers_keys T subs g masks0 masks :
  for_each (global_layer T subs) g masks0 = Ok masks →
  ∀ name, is_Some (masks !! name) ↔ is_Some (masks0 !! name) ∨ name ∈ g.*1.
Proof.
  revert masks0. induction g as [|item g IH]; intros masks0 H name.
  - injection H as <-. rewrite fmap_nil, elem_of_nil. tauto.
  - simpl in H. inv_bind H as masks1 Hmasks1.
    apply global_layer_keys in Hmasks1 as [m ->].
    rewrite (IH _ H), fmap_cons, elem_of_cons.
    destruct (decide (name = item.1)) as [->|Hne].
    + rewrite lookup_insert_eq. split; [auto|]. intros _. left. by eexists.
    + rewrite lookup_insert_ne by done. tauto.
Qed.

Lemma global_groups_keys ds masks0 masks :
  for_each global_group ds masks0 = Ok masks →
  Forall (λ d, d ≠ []) ds ∧
  ∀ name, is_Some (masks !! name)
          ↔ is_Some (masks0 !! name) ∨ ∃ d, d ∈ ds ∧ name ∈ d.*1.
Proof.
  revert masks0. induction ds as [|d ds IH]; intros masks0 H.
  - injection H as <-. split; [constructor|]. intros name.
    split; [auto|]. intros [?|(d & []%elem_of_nil & _)]. done.
  - simpl in H. inv_bind H as masks1 Hmasks1.
    destruct (IH _ H) as [Hne Hkeys]. unfold global_group in Hmasks1.
    inv_bind Hmasks1 as ts Hts. split.
    + constructor; [|done]. by intros ->.
    + intros name. rewrite Hkeys, (global_layers_keys _ _ _ _ _ Hmasks1).
      split.
      * intros [[?|?]|(d' & Hd' & Hname)]; [by left|right..].
        -- exists d. split; [left|done].
        -- exists d'. split; [by right|done].
      * intros [?|(d' & [->|Hd']%elem_of_cons & Hname)];
          [by left; left|by left; right|].
        right. by exists d'.
Qed.

Lemma group_metrics_of_names (metrics : metrics_dict) names d :
  group_metrics_of metrics names = Ok d → d.*1 = remove_dups names.
Proof.
  unfold group_metrics_of. intros H.
  apply (collect_loop _ (λ name,
           metric ← from_option KeyError (metrics !! name);
           Ok (name, metric))) in H as (ys & -> & Hys).
  2:{ intros acc name. by destruct (metrics !! name). }
  simpl. induction Hys as [|name y names' ys Hy _ IH]; [done|].
  inv_bind Hy as metric Hmetric. injection Hy as <-.
  rewrite fmap_cons. simpl. by rewrite IH.
Qed.

End GlobalMasks.

(** X17. A call of [generate_sparsity] of the Global allocator that
    returns has a mask for every layer of every module group and for no
    other name, and no module group is empty: an empty group raises
    [IndexError] in [_calculate_threshold]. *)
Theorem global_masks_for_grouped_layers (self : SparsityAllocator)
    (metrics : metrics_dict) masks :
  global_generate_sparsity metrics = Ok masks →
  (∀ name, is_Some (masks !! name)
           ↔ ∃ group, group ∈ generate_module_groups pruner ∧ name ∈ group.2) ∧
  (∀ group, group ∈ generate_module_groups pruner → group.2 ≠ []).
Proof.
  unfold global_generate_sparsity. intros H.
  inv_bind H as grouped Hgrouped.
  apply (collect_loop _ (λ group : nat * list string,
           group_metrics_of metrics group.2)) in Hgrouped
    as (ds & -> & Hds); [|done].
  simpl in H. apply global_groups_keys in H as [Hne Hkeys].
  split.
  - intros name. rewrite Hkeys, lookup_empty. split.
    + intros [[? [=]]|(d & [i Hd]%list_elem_of_lookup & Hname)].
      destruct (Forall2_lookup_r _ _ _ _ _ Hds Hd) as (group & Hgroup & Hd').
      exists group. split; [by eapply list_elem_of_lookup_2|].
      apply group_metrics_of_names in Hd'. rewrite Hd' in Hname.
      by rewrite elem_of_remove_dups in Hname.
    + intros (group & [i Hgroup]%list_elem_of_lookup & Hname). right.
      destruct (Forall2_lookup_l _ _ _ _ _ Hds Hgroup) as (d & Hd & Hd').
      exists d. split; [by eapply list_elem_of_lookup_2|].
      apply group_metrics_of_names in Hd'. rewrite Hd'.
      by rewrite elem_of_remove_dups.
  - intros group [i Hgroup]%list_elem_of_lookup Hnil.
    destruct (Forall2_lookup_l _ _ _ _ _ Hds Hgroup) as (d & Hd & Hd').
    rewrite Forall_forall in Hne.
    apply (Hne d); [by eapply list_elem_of_lookup_2|].
    apply group_metrics_of_names in Hd'. rewrite Hnil in Hd'.
    by destruct d.
Qed.

Lemma global_masks_for_grouped_layers_witness :
  let p := capped_pair (1 # 2) (1 # 2) (ones [4]%nat) (ones [4]%nat) in
  let self := Block.allocator p None None false in
  let masks : masks_dict :=
    {[ "layerA"%string := flat_mask [0; 0; 1; 1];
       "layerB"%string := flat_mask [0; 0; 1; 1] ]} in
  (∀ name, is_Some (masks !! name)
           ↔ ∃ group, group ∈ generate_module_groups p ∧ name ∈ group.2) ∧
  (∀ group, group ∈ generate_module_groups p → group.2 ≠ []).
Proof.
  intros p self masks.
  apply (global_masks_for_grouped_layers self
           (pair_metrics (Tensor [4]%nat [1; 2; 3; 4])
              (Tensor [4]%nat [10; 20; 30; 40])) masks).
  by vm_compute.
Defined.

(** ** The dependency-aware allocator *)

Lemma sum_loop_returns (ms : list (tensor Z)) acc :
  Forall (λ m, size m = size acc) ms →
  ∃ gm, for_each tensor_add ms acc = Ok gm ∧ size gm = size acc.
Proof.
  intros Hall. revert acc Hall.
  induction ms as [|m ms IH]; intros acc Hall; [by exists acc|].
  apply Forall_cons in Hall as [Hm Hall]. simpl.
  assert (tensor_add acc m
          = Ok (Tensor (size acc) (zip_with Z.add (storage acc) (storage m))))
    as ->.
  { unfold tensor_add. by rewrite bool_decide_eq_true_2. }
  simpl.
  destruct (IH (Tensor (size acc) (zip_with Z.add (storage acc) (storage m))))
    as (gm & Hgm & Hsize); [done|].
  by exists gm.
Qed.

(** X18. [_group_metric_calculate]: no metric at all raises [IndexError],
    a metric whose size differs from the first one raises
    [AssertionError], and metrics of one size are added entry by entry
    into a tensor of that size. *)
Theorem group_metric_is_entrywise_sum (first : tensor Z) (rest : list (tensor Z)) :
  _group_metric_calculate [] = Raise IndexError ∧
  ((∃ m, m ∈ rest ∧ size m ≠ size first) →
   _group_metric_calculate (first :: rest) = Raise AssertionError) ∧
  (Forall (λ m, size m = size first) rest →
   ∃ gm, _group_metric_calculate (first :: rest) = Ok gm ∧
         size gm = size first ∧
         (Forall tensor_wf (first :: rest) →
          ∀ i, (i < numel first)%nat →
            storage gm !! i
            = Some (sum_listZ ((λ m, default 0 (storage m !! i))
                                 <$> first :: rest)))).
Proof.
  split_and!; [done| |].
  - intros (m & Hm & Hsize). unfold _group_metric_calculate. simpl.
    rewrite bool_decide_eq_true_2 by done. simpl.
    assert (forallb (λ m, bool_decide (size first = size m)) rest = false)
      as ->; [|done].
    apply not_true_is_false. intros Hall. rewrite forallb_forall in Hall.
    apply list_elem_of_In, Hall, bool_decide_eq_true in Hm. congruence.
  - intros Hall.
    destruct (sum_loop_returns (first :: rest)
                (Tensor (size first) (replicate (numel first) 0)))
      as (gm & Hgm & Hsize).
    { constructor; [done|]. exact Hall. }
    assert (_group_metric_calculate (first :: rest) = Ok gm) as Hcalc.
    { unfold _group_metric_calculate.
      change (head (first :: rest)) with (Some first). simpl from_option.
      rewrite bind_Ok_l.
      assert (forallb (λ m, bool_decide (size first = size m)) (first :: rest)
              = true) as ->.
      { apply forallb_forall. intros m Hm%list_elem_of_In.
        apply bool_decide_eq_true.
        apply elem_of_cons in Hm as [->|Hm]; [done|].
        rewrite Forall_forall in Hall. symmetry. by apply Hall. }
      simpl py_assert. rewrite bind_Ok_l. exact Hgm. }
    exists gm. split_and!; [done..|]. intros Hwf i Hi.
    destruct (group_metric_sum _ _ Hcalc Hwf) as [_ Hentry].
    apply Hentry. unfold numel in *. simpl in Hsize. by rewrite Hsize.
Qed.

Lemma group_metric_is_entrywise_sum_witness :
  let a := Tensor [8]%nat (seqZ 0 8) in
  let b := Tensor [8]%nat (seqZ 100 8) in
  _group_metric_calculate [a; Tensor [4]%nat (seqZ 0 4)] = Raise AssertionError ∧
  ∃ gm, _group_metric_calculate [a; b] = Ok gm ∧
        size gm = [8]%nat ∧
        storage gm !! 3%nat
        = Some (sum_listZ ((λ m, default 0 (storage m !! 3%nat)) <$> [a; b])).
Proof.
  intros a b. split.
  - destruct (group_metric_is_entrywise_sum a [Tensor [4]%nat (seqZ 0 4)])
      as (_ & Hdiffer & _).
    apply Hdiffer. eexists. split; [left|]. by vm_compute.
  - destruct (group_metric_is_entrywise_sum a [b]) as (_ & _ & Hsum).
    destruct Hsum as (gm & Hgm & Hsize & Hentry);
      [by repeat constructor|].
    exists gm. split_and!; [done..|].
    apply Hentry; [by repeat constructor|]. vm_compute. lia.
Defined.

(** X19. The second pass of the dependency-aware allocator, for one
    member of a dependency set: when it returns, the member's prune number
    [int(sparsity * len(metric))] is at least 1 (with a prune number of 0
    the [max()] of line 287 raises on an empty selection), and for a metric
    and a shared mask without negative entries every channel that the
    shared mask removed is removed by the member's mask as well. *)
Theorem second_pass_keeps_structural_zeros (self : SparsityAllocator)
    (group_mask : tensor Z) (masks masks' : masks_dict) (name : string)
    (metric : tensor Z) (sparsity : Q) :
  member_mask group_mask masks (name, (metric, sparsity)) = Ok masks' →
  ∃ masked (len : nat) threshold m,
    tensor_mul metric group_mask = Ok masked ∧
    size metric = [len] ∧
    1 ≤ py_int (sparsity * inject_Z (Z.of_nat len))%Q
      ≤ Z.of_nat (length (storage masked)) ∧
    _expand_mask name (tensor_gt masked threshold) = Ok m ∧
    (Forall (λ x, 0 ≤ x) (storage metric) →
     Forall (λ x, 0 ≤ x) (storage group_mask) →
     ∀ i, (i < length (storage metric))%nat →
          storage group_mask !! i = Some 0 →
          storage (tensor_gt masked threshold) !! i = Some 0).
Proof.
  unfold member_mask. intros H.
  inv_bind H as masked Hmasked. inv_bind H as len Hlen.
  inv_bind H as smallest Htop. inv_bind H as threshold Hmax.
  inv_bind H as m Hm. clear H.
  set (k := py_int (sparsity * inject_Z (Z.of_nat len))%Q) in *.
  pose proof (topk_smallest_Ok _ _ _ Htop) as [Hk Hsmallest].
  assert (0 < k) as Hpos.
  { destruct (decide (k = 0)) as [Hk0|]; [|lia].
    rewrite Hk0 in Hsmallest. simpl in Hsmallest. subst smallest. done. }
  assert (size metric = [len]) as Hsize.
  { unfold tensor_mul in Hmasked. case_bool_decide; [|done].
    injection Hmasked as <-. unfold one_axis in Hlen. simpl in Hlen.
    destruct (size metric) as [|n [|]]; try done. by injection Hlen as ->. }
  exists masked, len, threshold, m. split_and!; [done|done|lia|lia|done|].
  intros Hmetric Hmask i Hi Hzero.
  apply (zero_cell_pruned masked k threshold Hpos).
  - unfold select_threshold. rewrite bool_decide_eq_false_2 by lia.
    rewrite Htop. done.
  - unfold tensor_mul in Hmasked. case_bool_decide; [|done].
    injection Hmasked as <-. simpl. apply Forall_forall.
    intros x [j Hj]%list_elem_of_lookup.
    apply lookup_zip_with_Some in Hj as (a & b & -> & Ha & Hb).
    rewrite Forall_forall in Hmetric, Hmask.
    apply Z.mul_nonneg_nonneg;
      [apply Hmetric|apply Hmask]; by eapply list_elem_of_lookup_2.
  - unfold tensor_mul in Hmasked. case_bool_decide; [|done].
    injection Hmasked as <-. simpl.
    destruct (lookup_lt_is_Some_2 (storage metric) i Hi) as [x Hx].
    rewrite lookup_zip_with, Hx, Hzero. simpl. f_equal. lia.
Qed.

Lemma second_pass_keeps_structural_zeros_witness :
  let self := Block.allocator conv_pair None None false in
  let metric := Tensor [8]%nat (seqZ 100 8) in
  let group_mask := Tensor [8]%nat [0; 1; 1; 1; 0; 1; 1; 1] in
  ∃ masked (len : nat) threshold m,
    tensor_mul metric group_mask = Ok masked ∧
    size metric = [len] ∧
    1 ≤ py_int ((1 # 2) * inject_Z (Z.of_nat len))%Q
      ≤ Z.of_nat (length (storage masked)) ∧
    _expand_mask "conv2"%string (tensor_gt masked threshold) = Ok m ∧
    (Forall (λ x, 0 ≤ x) (storage metric) →
     Forall (λ x, 0 ≤ x) (storage group_mask) →
     ∀ i, (i < length (storage metric))%nat →
          storage group_mask !! i = Some 0 →
          storage (tensor_gt masked threshold) !! i = Some 0).
Proof.
  intros self metric group_mask.
  apply (second_pass_keeps_structural_zeros self group_mask ∅
           {[ "conv2"%string := flat_mask [0; 0; 0; 1; 0; 1; 1; 1] ]}
           "conv2" metric (1 # 2)%Q).
  by vm_compute.
Defined.

Section DependencyMasks.
Context `{self : SparsityAllocator}.

Lemma mask_member_keys (metrics metrics' : metrics_dict) name :
  mask_member metrics name = Ok metrics' →
  ∀ other, is_Some (metrics' !! other) ↔ is_Some (metrics !! other).
Proof.
  unfold mask_member. intros H.
  inv_bind H as metric Hmetric. apply from_option_Ok in Hmetric.
  inv_bind H as w Hw. inv_bind H as c Hc. inv_bind H as mc Hmc.
  injection H as <-. intros other.
  destruct (decide (other = name)) as [->|Hne].
  - rewrite lookup_insert_eq, Hmetric. split; by eexists.
  - by rewrite lookup_insert_ne.
Qed.

Lemma collect_group_keys grouped (metrics : metrics_dict) names grouped' metrics' :
  collect_group (grouped, metrics) names = Ok (grouped', metrics') →
  (∀ other, is_Some (metrics' !! other) ↔ is_Some (metrics !! other)) ∧
  ∃ found,
    (∀ name, name ∈ found ↔ name ∈ names ∧ is_Some (metrics !! name)) ∧
    grouped' = if bool_decide (0 < length found)%nat
               then grouped ++ [found] else grouped.
Proof.
  unfold collect_group. intros H.
  set (found := filter (λ name, is_Some (metrics !! name)) (remove_dups names))
    in *.
  inv_bind H as metrics1 Hmetrics1.
  assert (∀ other, is_Some (metrics1 !! other) ↔ is_Some (metrics !! other))
    as Hkeys.
  { destruct continuous_mask; [|by injection Hmetrics1 as <-].
    revert Hmetrics1.
    apply (for_each_invariant mask_member
             (λ ms : metrics_dict,
                ∀ other, is_Some (ms !! other) ↔ is_Some (metrics !! other)));
      [|done].
    intros ms name ms' _ Hms Hstep other.
    rewrite (mask_member_keys _ _ _ Hstep other). apply Hms. }
  assert (grouped' = (if bool_decide (0 < length found)%nat
                      then grouped ++ [found] else grouped)
          ∧ metrics' = metrics1) as [-> ->].
  { case_bool_decide; by injection H as <- <-. }
  split; [done|]. exists found. split; [|done].
  intros name. unfold found. rewrite list_elem_of_filter, elem_of_remove_dups.
  tauto.
Qed.

Lemma collect_loop_keys cd grouped (metrics : metrics_dict) grouped' metrics' :
  for_each collect_group cd (grouped, metrics) = Ok (grouped', metrics') →
  (∀ other, is_Some (metrics' !! other) ↔ is_Some (metrics !! other)) ∧
  ∀ name, (∃ g, g ∈ grouped' ∧ name ∈ g)
          ↔ (∃ g, g ∈ grouped ∧ name ∈ g) ∨
            (is_Some (metrics !! name) ∧ ∃ names, names ∈ cd ∧ name ∈ names).
Proof.
  revert grouped metrics.
  induction cd as [|names cd IH]; intros grouped metrics H.
  - injection H as <- <-. split; [done|]. intros name. split; [auto|].
    intros [?|(_ & names & []%elem_of_nil & _)]. done.
  - simpl in H. inv_bind H as st Hst. destruct st as [grouped1 metrics1].
    apply collect_group_keys in Hst as (Hkeys1 & found & Hfound & ->).
    destruct (IH _ _ H) as [Hkeys Hgroups]. split.
    + intros other. by rewrite Hkeys, Hkeys1.
    + intros name. rewrite Hgroups, Hkeys1. split.
      * intros [(g & Hg & Hname)|(Hsome & names' & Hnames' & Hname)].
        -- case_bool_decide.
           ++ apply elem_of_app in Hg as [Hg|Hg%list_elem_of_singleton].
              ** left. by exists g.
              ** subst g. apply Hfound in Hname as [Hname Hsome]. right.
                 split; [done|]. exists names. split; [left|done].
           ++ left. by exists g.
        -- right. split; [done|]. exists names'. split; [by right|done].
      * intros [(g & Hg & Hname)|(Hsome & names' & Hin & Hname)].
        -- left. exists g. split; [|done].
           case_bool_decide; [|done]. apply elem_of_app. by left.
        -- apply elem_of_cons in Hin as [->|Hin].
           ++ left. exists found.
              assert (name ∈ found) as Hin by (by apply Hfound).
              split; [|done]. rewrite bool_decide_eq_true_2.
              ** apply elem_of_app. right. left.
              ** destruct found; [by apply elem_of_nil in Hin|simpl; lia].
           ++ right. split; [done|]. by exists names'.
Qed.

Lemma member_mask_keys group_mask masks item masks' :
  member_mask group_mask masks item = Ok masks' →
  ∃ m, masks' = <[item.1 := m]> masks.
Proof.
  destruct item as [name [metric sparsity]]. unfold member_mask. intros H.
  inv_bind H as masked Hmasked. inv_bind H as len Hlen.
  inv_bind H as smallest Htop. inv_bind H as threshold Hmax.
  inv_bind H as m Hm. inv_bind H as m' Hm'. injection H as <-. by eexists.
Qed.

Lemma member_loop_keys group_mask items masks0 masks :
  for_each (member_mask group_mask) items masks0 = Ok masks →
  ∀ name, is_Some (masks !! name)
          ↔ is_Some (masks0 !! name) ∨ name ∈ items.*1.
Proof.
  revert masks0. induction items as [|item items IH]; intros masks0 H name.
  - injection H as <-. rewrite fmap_nil, elem_of_nil. tauto.
  - simpl in H. inv_bind H as masks1 Hmasks1.
    apply member_mask_keys in Hmasks1 as [m ->].
    rewrite (IH _ H), fmap_cons, elem_of_cons.
    destruct (decide (name = item.1)) as [->|Hne].
    + rewrite lookup_insert_eq. split; [auto|]. intros _. left. by eexists.
    + rewrite lookup_insert_ne by done. tauto.
Qed.

Lemma dependency_group_keys group_depen (metrics : metrics_dict)
    (masks masks' : masks_dict) names :
  dependency_group group_depen metrics masks names = Ok masks' →
  ∀ name, is_Some (masks' !! name) ↔ is_Some (masks !! name) ∨ name ∈ names.
Proof.
  intros H name.
  destruct (dependency_group_returns _ _ _ _ _ H)
    as (ms & ss & gs & gm & mn & gmask & Hms & Hss & _ & _ & _ & _ & Hloop).
  rewrite (member_loop_keys _ _ _ _ Hloop).
  rewrite fst_zip; [done|].
  apply Forall2_length in Hms, Hss. rewrite length_zip. lia.
Qed.

Lemma dependency_groups_keys group_depen (metrics : metrics_dict)
    grouped (masks0 masks : masks_dict) :
  for_each (dependency_group group_depen metrics) grouped masks0 = Ok masks →
  ∀ name, is_Some (masks !! name)
          ↔ is_Some (masks0 !! name) ∨ ∃ g, g ∈ grouped ∧ name ∈ g.
Proof.
  revert masks0. induction grouped as [|g grouped IH]; intros masks0 H name.
  - injection H as <-. split; [auto|]. intros [?|(g & []%elem_of_nil & _)]. done.
  - simpl in H. inv_bind H as masks1 Hmasks1.
    rewrite (IH _ H), (dependency_group_keys _ _ _ _ _ Hmasks1). split.
    + intros [[?|?]|(g' & Hg' & Hname)]; [by left|right..].
      * exists g. split; [left|done].
      * exists g'. split; [by right|done].
    + intros [?|(g' & [->|Hg']%elem_of_cons & Hname)];
        [by left; left|by left; right|].
      right. by exists g'.
Qed.

End DependencyMasks.

(** X20. A call of [generate_sparsity] of the dependency-aware allocator
    that returns has a mask exactly for the layers that are members of a
    dependency set and have a metric; a member without a metric is skipped
    by the filter of line 253 and gets no mask.  The metrics keep their
    keys. *)
Theorem dependency_masks_for_members_with_metric (self : SparsityAllocator)
    channel_depen group_depen (metrics : metrics_dict) masks metrics' :
  dependency_generate_sparsity channel_depen group_depen metrics
  = Ok (masks, metrics') →
  (∀ name, is_Some (masks !! name)
           ↔ is_Some (metrics !! name) ∧
             ∃ names, names ∈ channel_depen ∧ name ∈ names) ∧
  (∀ name, is_Some (metrics' !! name) ↔ is_Some (metrics !! name)).
Proof.
  unfold dependency_generate_sparsity. intros H.
  inv_bind H as st Hst. destruct st as [grouped metrics1].
  inv_bind H as masks1 Hmasks1. injection H as <- <-.
  apply collect_loop_keys in Hst as [Hkeys Hgroups]. split; [|done].
  intros name. rewrite (dependency_groups_keys _ _ _ _ _ Hmasks1 name).
  rewrite Hgroups, lookup_empty. split.
  - intros [[? [=]]|[(g & []%elem_of_nil & _)|?]]. done.
  - intros ?. right. by right.
Qed.

Lemma dependency_masks_for_members_with_metric_witness :
  let self := Block.allocator skip_pruner None None false in
  (∀ name, is_Some (skip_masks !! name)
           ↔ is_Some (skip_metrics !! name) ∧
             ∃ names, names ∈ [["conv1"; "conv2"]%string] ∧ name ∈ names) ∧
  (∀ name, is_Some (skip_metrics !! name) ↔ is_Some (skip_metrics !! name)).
Proof.
  intros self.
  apply (dependency_masks_for_members_with_metric self
           [["conv1"; "conv2"]%string]
           {[ "conv1"%string := 1%nat; "conv2"%string := 1%nat ]}
           skip_metrics skip_masks skip_metrics).
  by vm_compute.
Defined.

(** ** BlockPruner.show_pruned_weights *)

Lemma filter_none {A} (P : A → Prop) `{∀ x, Decision (P x)} (l : list A) :
  Forall (λ x, ¬ P x) l → filter P l = [].
Proof.
  induction 1 as [|x l Hx _ IH]; [done|]. by rewrite filter_cons_False.
Qed.

Lemma list_remove_seq (s d n : nat) :
  (d < n)%nat →
  list_remove (s + d) (seq s n) = Ok (seq s d ++ seq (s + S d) (n - S d)).
Proof.
  revert s n. induction d as [|d IH]; intros s n Hd.
  - destruct n as [|n]; [lia|]. simpl.
    rewrite bool_decide_eq_true_2 by lia. do 2 f_equal; lia.
  - destruct n as [|n]; [lia|]. simpl.
    rewrite bool_decide_eq_false_2 by lia.
    replace (s + S d)%nat with (S s + d)%nat by lia.
    rewrite IH by lia. simpl.
    by replace (S (s + S d)) with (s + S (S d))%nat by lia.
Qed.

Lemma keep_one_axis (d rank : nat) :
  (d < rank)%nat →
  filter (λ i, i ∉ seq 0 d ++ seq (S d) (rank - S d)) (seq 0 rank) = [d].
Proof.
  intros Hd.
  assert (seq 0 rank = seq 0 d ++ d :: seq (S d) (rank - S d)) as Hsplit.
  { replace rank with (d + S (rank - S d))%nat at 1 by lia.
    by rewrite seq_app. }
  rewrite Hsplit, filter_app.
  rewrite (filter_none _ (seq 0 d)).
  2:{ apply Forall_forall. intros i Hi Hnot. apply Hnot, elem_of_app. by left. }
  rewrite filter_cons_True.
  2:{ intros [Hi|Hi]%elem_of_app; apply elem_of_seq in Hi; lia. }
  rewrite (filter_none _ (seq _ (rank - S d))); [done|].
  apply Forall_forall. intros i Hi Hnot. apply Hnot, elem_of_app. by right.
Qed.

Lemma select_dims_offset {A} (k d : nat) (l : list A) :
  snd <$> filter (λ p, p.1 ∈ [d]) (imap (λ i x, ((k + i)%nat, x)) l)
  = if decide (k ≤ d)%nat then option_list (l !! (d - k)%nat) else [].
Proof.
  revert k. induction l as [|x l IH]; intros k.
  - simpl. by destruct (decide _); [destruct (d - k)%nat|].
  - rewrite imap_cons.
    rewrite (imap_ext _ (λ i x, ((S k + i)%nat, x))).
    2:{ intros i y _. simpl. f_equal. lia. }
    destruct (decide (k + 0 = d)%nat) as [Hk|Hk].
    + rewrite filter_cons_True by (simpl; by apply list_elem_of_singleton).
      rewrite fmap_cons, IH. rewrite decide_False by lia.
      rewrite decide_True by lia. replace (d - k)%nat with 0%nat by lia. done.
    + rewrite filter_cons_False.
      2:{ simpl. by intros ?%list_elem_of_singleton. }
      rewrite IH. destruct (decide (S k ≤ d)%nat), (decide (k ≤ d)%nat);
        try lia; [|done].
      replace (d - k)%nat with (S (d - S k)) by lia. done.
Qed.

Lemma select_dims_single {A} (d : nat) (l : list A) :
  select_dims [d] l = option_list (l !! d).
Proof.
  unfold select_dims. rewrite (imap_ext _ (λ i x, ((0 + i)%nat, x))) by done.
  rewrite select_dims_offset. rewrite decide_True by lia.
  by rewrite Nat.sub_0_r.
Qed.

Lemma unravel_length (sz : list nat) (p : nat) :
  length (unravel sz p) = length sz.
Proof.
  revert p. induction sz as [|s sz IH]; intros p; [done|]. simpl. by rewrite IH.
Qed.

(** Summing out every axis but [d]: cell [j] adds the entries whose
    coordinate on axis [d] is [j]. *)
Lemma tensor_sum_keep_one (sz : list nat) (st : list Z) (d n : nat) :
  sz !! d = Some n →
  tensor_sum (Tensor sz st) (seq 0 d ++ seq (S d) (length sz - S d))
  = Tensor [n]
      ((λ j, sum_listZ (snd <$> filter (λ p, unravel sz p.1 !! d = Some j)
                                  (imap pair st)))
         <$> seq 0 n).
Proof.
  intros Hn. unfold tensor_sum. simpl.
  rewrite keep_one_axis by (by eapply lookup_lt_Some).
  rewrite select_dims_single, Hn. simpl. rewrite Nat.mul_1_r. f_equal.
  apply list_fmap_ext. intros _ j _. simpl. do 2 f_equal.
  apply list_filter_iff. intros [p x]. simpl.
  rewrite select_dims_single.
  change (Nat.divmod j 0 0 0).1 with (j / 1)%nat. rewrite Nat.div_1_r.
  destruct (unravel sz p !! d) as [c|]; simpl; [|done].
  split; [by intros [= ->]|by intros [= ->]].
Qed.

Lemma sum_abs_zero (cells : list Z) :
  sum_listZ (Z.abs <$> cells) = 0 ↔ Forall (eq 0) cells.
Proof.
  destruct (sum_nonneg_zero (Z.abs <$> cells)) as [_ Hiff].
  { apply Forall_fmap, Forall_forall. intros x _. simpl. lia. }
  rewrite Hiff, Forall_fmap. apply Forall_iff. intros x. simpl. lia.
Qed.

Lemma filter_imap_abs (P : nat → Prop) `{∀ q, Decision (P q)}
    (f : nat → nat) (l : list Z) :
  snd <$> filter (λ p : nat * Z, P p.1) (imap (λ i, pair (f i) ∘ Z.abs) l)
  = Z.abs <$> (snd <$> filter (λ p : nat * Z, P p.1) (imap (λ i, pair (f i)) l)).
Proof.
  revert f. induction l as [|x l IH]; intros f; [done|].
  rewrite !imap_cons. simpl.
  destruct (decide (P (f 0%nat))) as [Hp|Hp].
  - rewrite !filter_cons_True by done. rewrite !fmap_cons. simpl.
    f_equal. apply (IH (f ∘ S)).
  - rewrite !filter_cons_False by done. apply (IH (f ∘ S)).
Qed.

Lemma show_loop_app dim l1 l2 :
  BlockPruner.show_loop dim (l1 ++ l2)
  = match BlockPruner.show_loop dim l1 with
    | (out, Ok _) =>
        (out ++ (BlockPruner.show_loop dim l2).1,
         (BlockPruner.show_loop dim l2).2)
    | (out, Raise e) => (out, Raise e)
    end.
Proof.
  induction l1 as [|item l1 IH]; simpl.
  - by destruct (BlockPruner.show_loop dim l2).
  - destruct (BlockPruner.show_layer dim item) as [out [[]|e]]; [|done].
    rewrite IH. destruct (BlockPruner.show_loop dim l1) as [out1 [[]|e]];
      [|done].
    by rewrite app_assoc.
Qed.

(** X21. [show_pruned_weights] with the default [dim = -1] never raises:
    it logs, for every wrapped layer in order, the number of non-zero
    entries of its weight mask and the number of all entries; on a mask
    whose storage is complete the two differ by the number of zeros. *)
Theorem show_all_weights_counts_nonzero (p : Pruner) :
  BlockPruner.show_pruned_weights p (-1)
  = ((λ item : string * ModuleWrapper,
        BlockPruner.Logged item.1 (BlockPruner.nonzero (weight_mask item.2))
          (numel (weight_mask item.2))) <$> get_modules_wrapper p,
     Ok ()) ∧
  ∀ mask : tensor Z,
    (BlockPruner.nonzero mask + count_zero (storage mask)
     = length (storage mask))%nat.
Proof.
  split.
  - unfold BlockPruner.show_pruned_weights.
    induction (get_modules_wrapper p) as [|[name w] l IH]; [done|].
    simpl. by rewrite IH.
  - intros mask. unfold BlockPruner.nonzero, count_zero.
    induction (storage mask) as [|x l IH]; [done|].
    destruct (decide (x = 0)) as [->|Hx].
    + rewrite filter_cons_False by (simpl; lia).
      rewrite filter_cons_True by done. simpl. lia.
    + rewrite filter_cons_True by lia.
      rewrite filter_cons_False by done. simpl. lia.
Qed.

(** X22. [show_pruned_weights] with an axis [d] of a mask of two or more
    axes prints the other axes and logs [remain / total], where [total] is
    the extent of axis [d] and [remain] counts the positions [j] on that
    axis for which some entry of the mask with coordinate [j] is not zero;
    so [remain <= total]. *)
Theorem show_dim_counts_touched_slices (name : string) (w : ModuleWrapper)
    (d n : nat) :
  (2 ≤ length (size (weight_mask w)))%nat →
  size (weight_mask w) !! d = Some n →
  ∃ cells remain,
    BlockPruner.show_layer (Z.of_nat d) (name, w)
    = ([BlockPruner.Printed
          (seq 0 d ++ seq (S d) (length (size (weight_mask w)) - S d));
        BlockPruner.Logged name remain n], Ok ()) ∧
    length cells = n ∧
    remain = length (filter (λ x, x ≠ 0) cells) ∧
    (remain ≤ n)%nat ∧
    ∀ j, (j < n)%nat →
      (cells !! j = Some 0
       ↔ ∀ q x, storage (weight_mask w) !! q = Some x →
                unravel (size (weight_mask w)) q !! d = Some j → x = 0).
Proof.
  intros Hrank Hn. destruct (weight_mask w) as [sz st] eqn:Hmask.
  simpl in *. pose proof (lookup_lt_Some _ _ _ Hn) as Hd.
  set (cell := λ j, sum_listZ
         (snd <$> filter (λ p : nat * Z, unravel sz p.1 !! d = Some j)
                    (imap pair (Z.abs <$> st)))).
  exists (cell <$> seq 0 n), (length (filter (λ x, x ≠ 0) (cell <$> seq 0 n))).
  split_and!.
  - unfold BlockPruner.show_layer. rewrite Hmask. simpl.
    rewrite bool_decide_eq_false_2 by lia.
    rewrite bool_decide_eq_false_2 by lia.
    unfold BlockPruner.remove_int. rewrite bool_decide_eq_true_2 by lia.
    rewrite Nat2Z.id.
    pose proof (list_remove_seq 0 d (length sz) Hd) as Hremove.
    simpl in Hremove. rewrite Hremove.
    unfold BlockPruner.size_at. simpl.
    rewrite bool_decide_eq_true_2 by lia.
    rewrite Z.mod_small by lia. rewrite Nat2Z.id, Hn. simpl.
    unfold tensor_map. simpl. rewrite (tensor_sum_keep_one sz _ d n) by done.
    unfold BlockPruner.nonzero. simpl. do 5 f_equal.
    apply list_filter_iff. intros x. lia.
  - by rewrite length_fmap, length_seq.
  - done.
  - etrans; [apply length_filter|]. by rewrite length_fmap, length_seq.
  - intros j Hj. rewrite list_lookup_fmap, lookup_seq_lt by done. simpl.
    unfold cell. rewrite imap_fmap.
    assert (snd <$> filter (λ p : nat * Z, unravel sz p.1 !! d = Some j)
                      (imap (λ n0, pair n0 ∘ Z.abs) st)
            = Z.abs <$> (snd <$> filter
                           (λ p : nat * Z, unravel sz p.1 !! d = Some j)
                           (imap pair st))) as ->.
    { exact (filter_imap_abs (λ q, unravel sz q !! d = Some j) id st). }
    split.
    + intros [= Hsum]. apply sum_abs_zero in Hsum. intros q x Hq Hcoord.
      rewrite Forall_forall in Hsum. symmetry. apply Hsum.
      apply list_elem_of_fmap. exists (q, x). split; [done|].
      apply list_elem_of_filter. split; [done|].
      apply list_elem_of_lookup. exists q. by rewrite list_lookup_imap, Hq.
    + intros Hzero. f_equal. apply sum_abs_zero, Forall_forall.
      intros x ([q x'] & -> & [Hcoord Hin]%list_elem_of_filter)%list_elem_of_fmap.
      simpl in *. apply list_elem_of_lookup in Hin as [i Hi].
      apply list_lookup_imap_Some in Hi as (y & Hy & [= -> ->]).
      symmetry. by eapply Hzero.
Qed.

Lemma show_dim_counts_touched_slices_witness :
  let w := layer (1 # 2) None (Tensor [2; 3]%nat [1; 0; 0; 1; 0; 0]) in
  ∃ cells remain,
    BlockPruner.show_layer (Z.of_nat 1) ("fc"%string, w)
    = ([BlockPruner.Printed (seq 0 1 ++ seq 2 (2 - 2));
        BlockPruner.Logged "fc" remain 3], Ok ()) ∧
    length cells = 3%nat ∧
    remain = length (filter (λ x, x ≠ 0) cells) ∧
    (remain ≤ 3)%nat ∧
    ∀ j, (j < 3)%nat →
      (cells !! j = Some 0
       ↔ ∀ q x, storage (weight_mask w) !! q = Some x →
                unravel (size (weight_mask w)) q !! 1%nat = Some j → x = 0).
Proof.
  intros w.
  apply (show_dim_counts_touched_slices "fc" w 1 3); [simpl; lia|reflexivity].
Defined.

Lemma list_remove_absent (x : nat) (l : list nat) :
  x ∉ l → list_remove x l = Raise ValueError.
Proof.
  induction l as [|y l IH]; [done|]. intros [Hne Hnot]%not_elem_of_cons.
  simpl. rewrite bool_decide_eq_false_2 by done. by rewrite IH.
Qed.

(** X23. [show_pruned_weights] with an axis the mask does not have: on a
    mask that has not exactly one axis, a [dim] other than -1 outside
    [0, rank) makes [sum_idx.remove(dim)] raise [ValueError]; on a mask of
    one axis every [dim] other than -1 and 0 makes [size(dim)] raise
    [IndexError].  Nothing is written for that layer, the lines of the
    layers before it have been written, and the layers after it are not
    looked at. *)
Theorem show_dim_out_of_range_raises (dim : Z) (name : string)
    (w : ModuleWrapper) (before after : list (string * ModuleWrapper)) out :
  dim ≠ -1 →
  BlockPruner.show_loop dim before = (out, Ok ()) →
  (length (size (weight_mask w)) ≠ 1%nat →
   ¬ (0 ≤ dim < Z.of_nat (length (size (weight_mask w)))) →
   BlockPruner.show_layer dim (name, w) = ([], Raise ValueError) ∧
   BlockPruner.show_loop dim (before ++ (name, w) :: after)
   = (out, Raise ValueError)) ∧
  (length (size (weight_mask w)) = 1%nat → dim ≠ 0 →
   BlockPruner.show_layer dim (name, w) = ([], Raise IndexError) ∧
   BlockPruner.show_loop dim (before ++ (name, w) :: after)
   = (out, Raise IndexError)).
Proof.
  intros Hdim Hbefore.
  assert (∀ e, BlockPruner.show_layer dim (name, w) = ([], Raise e) →
            BlockPruner.show_loop dim (before ++ (name, w) :: after)
            = (out, Raise e)) as Hloop.
  { intros e Hlayer. rewrite show_loop_app, Hbefore.
    cbn [BlockPruner.show_loop fst snd]. rewrite Hlayer.
    by rewrite app_nil_r. }
  split.
  - intros Hrank Hrange.
    assert (BlockPruner.show_layer dim (name, w) = ([], Raise ValueError))
      as Hlayer; [|by split; [|apply Hloop]].
    unfold BlockPruner.show_layer.
    rewrite bool_decide_eq_false_2 by done.
    rewrite bool_decide_eq_false_2 by done.
    unfold BlockPruner.remove_int. case_bool_decide as Hneg; [|done].
    rewrite list_remove_absent; [done|].
    intros Hin%elem_of_seq. lia.
  - intros Hrank Hzero.
    assert (BlockPruner.show_layer dim (name, w) = ([], Raise IndexError))
      as Hlayer; [|by split; [|apply Hloop]].
    unfold BlockPruner.show_layer.
    rewrite bool_decide_eq_false_2 by done.
    rewrite bool_decide_eq_true_2 by done.
    unfold BlockPruner.size_at. rewrite Hrank.
    rewrite bool_decide_eq_false_2 by lia. done.
Qed.

Lemma show_dim_out_of_range_raises_witness :
  let first := ("fc1"%string, layer (1 # 2) None (Tensor [2; 2]%nat [1; 0; 0; 0])) in
  let second := layer (1 # 2) None (Tensor [4]%nat [1; 0; 1; 0]) in
  let out := [BlockPruner.Printed [0%nat]; BlockPruner.Logged "fc1" 1 2] in
  BlockPruner.show_loop 1 [first] = (out, Ok ()) ∧
  BlockPruner.show_layer 1 ("bn"%string, second) = ([], Raise IndexError) ∧
  BlockPruner.show_loop 1 ([first] ++ ("bn"%string, second) :: [first])
  = (out, Raise IndexError).
Proof.
  intros first second out.
  assert (BlockPruner.show_loop 1 [first] = (out, Ok ())) as Hbefore
    by reflexivity.
  split; [exact Hbefore|].
  destruct (show_dim_out_of_range_raises 1 "bn" second [first] [first] out
              ltac:(lia) Hbefore) as [_ Hone].
  apply Hone; [reflexivity|lia].
Defined.

(** ** The collectors of ActivationPruner and TaylorFOWeightPruner *)

(** One call of a hook on a buffer that holds a count and a total. *)
Lemma add_batch_counted (c : Z) (acc t : tensor Q) :
  size acc = size t →
  add_batch [Batches c; Total acc] (Ok t)
  = Ok [Batches (c + 1);
        Total (Tensor (size acc) (zip_with Qplus (storage acc) (storage t)))].
Proof.
  intros Hsize. unfold add_batch. simpl. unfold tensor_addQ.
  rewrite bool_decide_eq_true_2 by done. done.
Qed.

(** A hook that adds [f t] for every tensor [t] it is called with, as
    long as the count is below [limit]. *)
Lemma hook_loop (hook : list buffer_item → tensor Q → result (list buffer_item))
    (f : tensor Q → list Q) (T : Z) (sz : list nat) (ts : list (tensor Q))
    (c : Z) (acc : list Q) :
  (∀ c acc t, t ∈ ts →
     hook [Batches c; Total (Tensor sz acc)] t
     = if bool_decide (c < T)
       then Ok [Batches (c + 1); Total (Tensor sz (zip_with Qplus acc (f t)))]
       else Ok [Batches c; Total (Tensor sz acc)]) →
  for_each hook ts [Batches c; Total (Tensor sz acc)]
  = Ok [Batches (c + Z.of_nat (Nat.min (length ts) (Z.to_nat (T - c))));
        Total (Tensor sz (summed_batches f (Z.to_nat (T - c)) acc ts))].
Proof.
  revert c acc. induction ts as [|t ts IH]; intros c acc Hhook.
  - simpl. unfold summed_batches. rewrite take_nil. simpl.
    by rewrite Z.add_0_r.
  - simpl. rewrite Hhook by left. case_bool_decide as Hc.
    + simpl. rewrite IH by (intros; apply Hhook; by right).
      unfold summed_batches.
      replace (Z.to_nat (T - c)) with (S (Z.to_nat (T - (c + 1)))) by lia.
      simpl. do 3 f_equal. lia.
    + simpl. rewrite IH by (intros; apply Hhook; by right).
      unfold summed_batches.
      replace (Z.to_nat (T - c)) with 0%nat by lia.
      rewrite Nat.min_0_r. done.
Qed.

Lemma summed_batches_invariant (P : Q → Prop) (f : tensor Q → list Q)
    (limit : nat) (start : list Q) (ts : list (tensor Q)) :
  (∀ x y, P x → P y → P (x + y)%Q) →
  Forall P start → Forall (λ t, Forall P (f t)) ts →
  Forall P (summed_batches f limit start ts).
Proof.
  intros Hadd Hstart Hts. unfold summed_batches.
  assert (Forall (λ t, Forall P (f t)) (take limit ts)) as Htake.
  { apply Forall_forall. intros t Ht%(subseteq_take _ _).
    rewrite Forall_forall in Hts. by apply Hts. }
  revert start Hstart. induction Htake as [|t l Ht _ IH]; intros start Hstart.
  - done.
  - rewrite fmap_cons. simpl. apply IH.
    apply Forall_forall. intros q [i Hq]%list_elem_of_lookup.
    apply lookup_zip_with_Some in Hq as (x & y & -> & Hx & Hy).
    rewrite Forall_forall in Hstart, Ht.
    apply Hadd; [apply Hstart|apply Ht]; by eapply list_elem_of_lookup_2.
Qed.

Lemma summed_batches_length (f : tensor Q → list Q) (limit n : nat)
    (start : list Q) (ts : list (tensor Q)) :
  length start = n → Forall (λ t, length (f t) = n) ts →
  length (summed_batches f limit start ts) = n.
Proof.
  intros Hstart Hts. unfold summed_batches.
  assert (Forall (λ t, length (f t) = n) (take limit ts)) as Htake.
  { apply Forall_forall. intros t Ht%(subseteq_take _ _).
    rewrite Forall_forall in Hts. by apply Hts. }
  revert start Hstart. induction Htake as [|t l Ht _ IH]; intros start Hstart.
  - done.
  - rewrite fmap_cons. simpl. apply IH. rewrite length_zip_with. lia.
Qed.

Lemma square_nonneg (x : Q) : (0 <= x ^ 2)%Q.
Proof. destruct x as [a b]. unfold Qle. simpl. nia. Qed.

(** X24. The hook of [TaylorFOWeightPruner._collector].  The collector
    refuses a buffer that is not empty.  After the hook has been called
    with gradients of the size of the weight, the buffer holds the number
    of gradients seen, capped by [training_batches], and the sum of
    [(weight * grad) ** 2] over the gradients counted; the gradients after
    the [training_batches]-th change nothing, and no entry of the sum is
    negative. *)
Theorem taylor_hook_sums_first_batches (training_batches : Z)
    (weight_tensor : tensor Q) (grads : list (tensor Q))
    (buffer : list buffer_item) :
  (buffer ≠ [] →
   TaylorFOWeightPruner._collector buffer weight_tensor = Raise AssertionError) ∧
  (Forall (λ g, size g = size weight_tensor) grads →
   let limit := Z.to_nat training_batches in
   let expansion (g : tensor Q) :=
     (λ x, x ^ 2)%Q <$> zip_with Qmult (storage weight_tensor) (storage g) in
   let total :=
     summed_batches expansion limit
       (replicate (length (storage weight_tensor)) 0%Q) grads in
   (b ← TaylorFOWeightPruner._collector [] weight_tensor;
    for_each (TaylorFOWeightPruner.collect_taylor training_batches weight_tensor)
      grads b)
   = Ok [Batches (Z.of_nat (Nat.min (length grads) limit));
         Total (Tensor (size weight_tensor) total)] ∧
   Forall (λ q, (0 <= q)%Q) total).
Proof.
  split.
  - intros Hne. unfold TaylorFOWeightPruner._collector.
    rewrite bool_decide_eq_false_2; [done|]. by destruct buffer.
  - intros Hsizes limit expansion total. split.
    + assert (TaylorFOWeightPruner._collector [] weight_tensor
              = Ok [Batches 0;
                    Total (Tensor (size weight_tensor)
                             (replicate (length (storage weight_tensor)) 0%Q))])
        as -> by reflexivity.
      rewrite bind_Ok_l.
      rewrite (hook_loop _ expansion training_batches).
      * rewrite Z.sub_0_r. done.
      * intros c acc g Hg. rewrite Forall_forall in Hsizes.
        unfold TaylorFOWeightPruner.collect_taylor. simpl.
        case_bool_decide; [|done].
        unfold TaylorFOWeightPruner._calculate_taylor_expansion, tensor_mulQ.
        rewrite bool_decide_eq_true_2 by (symmetry; by apply Hsizes).
        simpl. unfold add_batch. simpl. unfold tensor_addQ. simpl.
        rewrite bool_decide_eq_true_2 by done. done.
    + apply (summed_batches_invariant (λ q, (0 <= q)%Q)).
      * intros x y Hx Hy. rewrite <-(Qplus_0_r 0). by apply Qplus_le_compat.
      * apply Forall_forall. intros q [-> _]%elem_of_replicate. apply Qle_refl.
      * apply Forall_forall. intros g _. apply Forall_fmap, Forall_forall.
        intros x _. simpl. apply square_nonneg.
Qed.

Lemma taylor_hook_sums_first_batches_witness :
  let w := Tensor [2]%nat [(1 # 2)%Q; 2%Q] in
  let g1 := Tensor [2]%nat [2%Q; 1%Q] in
  let g2 := Tensor [2]%nat [4%Q; (-1)%Q] in
  let g3 := Tensor [2]%nat [6%Q; 3%Q] in
  let expansion (g : tensor Q) :=
    (λ x, x ^ 2)%Q <$> zip_with Qmult (storage w) (storage g) in
  let total := summed_batches expansion 2 (replicate 2 0%Q) [g1; g2; g3] in
  (b ← TaylorFOWeightPruner._collector [] w;
   for_each (TaylorFOWeightPruner.collect_taylor 2 w) [g1; g2; g3] b)
  = Ok [Batches 2; Total (Tensor [2]%nat total)] ∧
  Forall (λ q, (0 <= q)%Q) total.
Proof.
  intros w g1 g2 g3 expansion total.
  destruct (taylor_hook_sums_first_batches 2 w [g1; g2; g3] []) as [_ Hsum].
  apply Hsum. repeat constructor.
Defined.

(** X25. The hook of [ActivationPruner._collector].  The collector refuses
    a buffer that is not empty and starts the buffer with the count 0; the
    first call of the hook appends the zero tensor.  After the hook has
    been called with outputs of one size, the buffer holds the number of
    outputs seen, capped by [training_batches], and the sum of the
    transformed outputs that were counted. *)
Theorem activation_hook_sums_first_batches (training_batches : Z)
    (trans : tensor Q → tensor Q) (output : tensor Q)
    (outputs : list (tensor Q)) (buffer : list buffer_item) :
  (buffer ≠ [] → ActivationPruner._collector buffer = Raise AssertionError) ∧
  (b ← ActivationPruner._collector [];
   for_each (ActivationPruner.collect_activation training_batches trans) [] b)
  = Ok [Batches 0] ∧
  (Forall (λ o, size o = size output) outputs →
   (∀ o, size (trans o) = size o) →
   let limit := Z.to_nat training_batches in
   (b ← ActivationPruner._collector [];
    for_each (ActivationPruner.collect_activation training_batches trans)
      (output :: outputs) b)
   = Ok [Batches (Z.of_nat (Nat.min (length (output :: outputs)) limit));
         Total (Tensor (size output)
                  (summed_batches (storage ∘ trans) limit
                     (replicate (length (storage output)) 0%Q)
                     (output :: outputs)))]).
Proof.
  split_and!.
  - intros Hne. unfold ActivationPruner._collector.
    rewrite bool_decide_eq_false_2; [done|]. by destruct buffer.
  - done.
  - intros Hsizes Htrans limit.
    assert (ActivationPruner._collector [] = Ok [Batches 0]) as ->
      by reflexivity.
    rewrite bind_Ok_l.
    set (hook := ActivationPruner.collect_activation training_batches trans).
    set (start := [Batches 0;
                   Total (Tensor (size output)
                            (replicate (length (storage output)) 0%Q))]).
    assert (for_each hook (output :: outputs) [Batches 0]
            = for_each hook (output :: outputs) start) as -> by reflexivity.
    unfold start.
    rewrite (hook_loop _ (storage ∘ trans) training_batches).
    + rewrite Z.sub_0_r. done.
    + intros c acc o Ho. unfold hook, ActivationPruner.collect_activation.
      simpl. case_bool_decide; [|done].
      rewrite add_batch_counted; [done|]. simpl. rewrite Htrans.
      apply elem_of_cons in Ho as [->|Ho]; [done|].
      rewrite Forall_forall in Hsizes. symmetry. by apply Hsizes.
Qed.

Lemma activation_hook_sums_first_batches_witness :
  let o1 := Tensor [2]%nat [(-1)%Q; 3%Q] in
  let o2 := Tensor [2]%nat [0%Q; 8%Q] in
  let o3 := Tensor [2]%nat [5%Q; 5%Q] in
  let trans := ActivationPruner.mean_rank_trans ActivationPruner.relu6 in
  (b ← ActivationPruner._collector [];
   for_each (ActivationPruner.collect_activation 2 trans) [o1; o2; o3] b)
  = Ok [Batches 2;
        Total (Tensor [2]%nat
                 (summed_batches (storage ∘ trans) 2 (replicate 2 0%Q)
                    [o1; o2; o3]))].
Proof.
  intros o1 o2 o3 trans.
  destruct (activation_hook_sums_first_batches 2 trans o1 [o2; o3] [])
    as (_ & _ & Hsum).
  apply Hsum; [repeat constructor|done].
Defined.

Lemma relu_zero (x : Q) :
  Qeq_bool (ActivationPruner.relu x) 0 = Qle_bool x 0.
Proof.
  unfold ActivationPruner.relu. destruct (Qlt_le_dec x 0) as [Hx|Hx].
  - symmetry. apply Qle_bool_iff. by apply Qlt_le_weak.
  - destruct (Qle_bool x 0) eqn:Hle.
    + apply Qle_bool_iff in Hle. apply Qeq_bool_iff. by apply Qle_antisym.
    + apply not_true_is_false. intros Heq%Qeq_bool_iff.
      assert (Qle_bool x 0 = true); [|congruence].
      apply Qle_bool_iff. rewrite Heq. apply Qle_refl.
Qed.

Lemma relu6_zero (x : Q) :
  Qeq_bool (ActivationPruner.relu6 x) 0 = Qeq_bool (ActivationPruner.relu x) 0.
Proof.
  unfold ActivationPruner.relu6.
  destruct (Qlt_le_dec 6 (ActivationPruner.relu x)) as [Hx|Hx]; [|done].
  transitivity false; [done|]. symmetry. apply not_true_is_false.
  intros Heq%Qeq_bool_iff. rewrite Heq in Hx. by vm_compute in Hx.
Qed.

Lemma counted_sum_bounds (f : tensor Q → list Q) (l : list (tensor Q))
    (start : list Q) (b : nat) :
  Forall (λ q, (0 <= q)%Q ∧ (q <= inject_Z (Z.of_nat b))%Q) start →
  Forall (λ t, Forall (λ q, (0 <= q)%Q ∧ (q <= 1)%Q) (f t)) l →
  Forall (λ q, (0 <= q)%Q ∧ (q <= inject_Z (Z.of_nat (b + length l)))%Q)
    (foldl (zip_with Qplus) start (f <$> l)).
Proof.
  intros Hstart Hl. revert start b Hstart.
  induction Hl as [|t l Ht _ IH]; intros start b Hstart.
  - simpl. by rewrite Nat.add_0_r.
  - rewrite fmap_cons. simpl.
    replace (b + S (length l))%nat with (S b + length l)%nat by lia.
    apply IH. apply Forall_forall. intros q [i Hq]%list_elem_of_lookup.
    apply lookup_zip_with_Some in Hq as (x & y & -> & Hx & Hy).
    rewrite Forall_forall in Hstart, Ht.
    destruct (Hstart x (list_elem_of_lookup_2 _ _ _ Hx)) as [Hx0 Hxb].
    destruct (Ht y (list_elem_of_lookup_2 _ _ _ Hy)) as [Hy0 Hy1].
    split.
    + rewrite <-(Qplus_0_r 0). by apply Qplus_le_compat.
    + rewrite Nat2Z.inj_succ. unfold Z.succ. rewrite inject_Z_plus.
      by apply Qplus_le_compat.
Qed.

(** X26. [ActivationAPoZRankPruner._activation_trans] marks the entries
    whose activation is zero: for both activations that
    [_choose_activation] can return these are the entries that are not
    positive.  So what the hook adds up is, for every position, a number
    between 0 and the number of batches counted. *)
Theorem apoz_marks_inactive_entries :
  (∀ (activation : string) (act : Q → Q) (output : tensor Q),
     ActivationPruner._choose_activation activation = Some act →
     ActivationPruner.apoz_trans act output
     = tensor_map (λ x, if Qle_bool x 0 then 1%Q else 0%Q) output) ∧
  (∀ (activation : string) (act : Q → Q) (limit n : nat)
     (outputs : list (tensor Q)),
     ActivationPruner._choose_activation activation = Some act →
     Forall (λ q, (0 <= q)%Q ∧
                  (q <= inject_Z (Z.of_nat (Nat.min (length outputs) limit)))%Q)
       (summed_batches (storage ∘ ActivationPruner.apoz_trans act)
          limit (replicate n 0%Q) outputs)).
Proof.
  split.
  - intros activation act output Hact.
    unfold ActivationPruner._choose_activation in Hact.
    unfold ActivationPruner.apoz_trans, tensor_map. f_equal.
    apply list_fmap_ext. intros _ x _. simpl.
    repeat case_bool_decide; simplify_eq.
    + by rewrite relu_zero.
    + by rewrite relu6_zero, relu_zero.
  - intros activation act limit n outputs _. unfold summed_batches.
    replace (Nat.min (length outputs) limit)
      with (0 + length (take limit outputs))%nat by (rewrite length_take; lia).
    apply (counted_sum_bounds _ _ _ 0).
    + apply Forall_forall. intros q [-> _]%elem_of_replicate. done.
    + apply Forall_forall. intros o _. simpl. apply Forall_fmap, Forall_forall.
      intros x _. simpl. by destruct (Qeq_bool _ 0).
Qed.

Lemma apoz_marks_inactive_entries_witness :
  let output := Tensor [3]%nat [(-1)%Q; 0%Q; 7%Q] in
  ActivationPruner.apoz_trans ActivationPruner.relu6 output
  = tensor_map (λ x, if Qle_bool x 0 then 1%Q else 0%Q) output ∧
  Forall (λ q, (0 <= q)%Q ∧ (q <= inject_Z (Z.of_nat (Nat.min 2 5)))%Q)
    (summed_batches (storage ∘ ActivationPruner.apoz_trans ActivationPruner.relu6)
       5 (replicate 3 0%Q) [output; output]).
Proof.
  intros output. destruct apoz_marks_inactive_entries as [Hmarks Hbounds].
  split.
  - by apply (Hmarks "relu6"%string).
  - by apply (Hbounds "relu6"%string ActivationPruner.relu6 5%nat 3%nat
                [output; output]).
Defined.

(** ** The Block allocator: reducing to one axis *)

(** X27. [_compress_mask] of the Block allocator with [dim] naming one
    axis [d] of a mask of two or more axes, without a block size and on a
    mask without negative entries: the other axes are summed out, and the
    reduced mask has one entry for every position [j] on axis [d], which
    is 0 exactly when every entry of the mask with coordinate [j] is 0. *)
Theorem block_compress_single_axis (sz : list nat) (st : list Z) (d n : nat) :
  (2 ≤ length sz)%nat → sz !! d = Some n →
  Forall (λ x, 0 ≤ x) st →
  ∃ reduced,
    Block.compress_mask (Some [d]) None (Tensor sz st) = Ok reduced ∧
    size reduced = [n] ∧
    length (storage reduced) = n ∧
    ∀ j, (j < n)%nat →
      ∃ x, storage reduced !! j = Some x ∧ (x = 0 ∨ x = 1) ∧
           (x = 0 ↔ ∀ q y, st !! q = Some y →
                           unravel sz q !! d = Some j → y = 0).
Proof.
  intros Hrank Hn Hall. pose proof (lookup_lt_Some _ _ _ Hn) as Hd.
  set (cell := λ j, sum_listZ
         (snd <$> filter (λ p : nat * Z, unravel sz p.1 !! d = Some j)
                    (imap pair st))).
  exists (Tensor [n] ((λ j, if bool_decide (cell j = 0) then 0 else 1)
                        <$> seq 0 n)).
  assert (∀ j, cell j = 0 ↔ ∀ q y, st !! q = Some y →
                              unravel sz q !! d = Some j → y = 0) as Hcell.
  { intros j. unfold cell.
    destruct (sum_nonneg_zero
                (snd <$> filter (λ p : nat * Z, unravel sz p.1 !! d = Some j)
                           (imap pair st))) as [_ Hiff].
    { apply Forall_fmap, Forall_forall.
      intros [q y] [_ [i Hi]%list_elem_of_lookup]%list_elem_of_filter.
      apply list_lookup_imap_Some in Hi as (y' & Hy' & [= -> ->]). simpl.
      rewrite Forall_forall in Hall. apply Hall.
      by eapply list_elem_of_lookup_2. }
    rewrite Hiff. split.
    - intros Hzero q y Hq Hcoord. rewrite Forall_forall in Hzero.
      symmetry. apply Hzero. apply list_elem_of_fmap. exists (q, y).
      split; [done|]. apply list_elem_of_filter. split; [done|].
      apply list_elem_of_lookup. exists q. by rewrite list_lookup_imap, Hq.
    - intros Hzero. apply Forall_forall.
      intros y ([q y'] & -> & [Hcoord Hin]%list_elem_of_filter)%list_elem_of_fmap.
      simpl in *. apply list_elem_of_lookup in Hin as [i Hi].
      apply list_lookup_imap_Some in Hi as (y & Hy & [= -> ->]).
      symmetry. by eapply Hzero. }
  split_and!.
  - unfold Block.compress_mask. simpl.
    rewrite bool_decide_eq_false_2 by lia.
    rewrite bool_decide_eq_false_2 by lia. simpl.
    pose proof (list_remove_seq 0 d (length sz) Hd) as Hremove.
    simpl in Hremove. rewrite Hremove. simpl.
    rewrite (tensor_sum_keep_one sz st d n) by done.
    unfold tensor_map. simpl. do 2 f_equal.
    rewrite <-!list_fmap_compose. apply list_fmap_ext. intros _ j _. simpl.
    by rewrite ne_zero_inject.
  - done.
  - simpl. by rewrite length_fmap, length_seq.
  - intros j Hj. simpl. rewrite list_lookup_fmap, lookup_seq_lt by done.
    simpl. eexists. split; [done|]. rewrite <-Hcell.
    case_bool_decide; split; auto; split; done.
Qed.

Lemma block_compress_single_axis_witness :
  ∃ reduced,
    Block.compress_mask (Some [1%nat]) None
      (Tensor [2; 3]%nat [1; 0; 0; 1; 0; 0]) = Ok reduced ∧
    size reduced = [3%nat] ∧
    length (storage reduced) = 3%nat ∧
    ∀ j, (j < 3)%nat →
      ∃ x, storage reduced !! j = Some x ∧ (x = 0 ∨ x = 1) ∧
           (x = 0 ↔ ∀ q y, [1; 0; 0; 1; 0; 0] !! q = Some y →
                           unravel [2; 3]%nat q !! 1%nat = Some j → y = 0).
Proof.
  apply (block_compress_single_axis [2; 3]%nat [1; 0; 0; 1; 0; 0] 1 3);
    [simpl; lia|reflexivity|repeat constructor; lia].
Defined.
